(** * Time-bounded exhaustive tour search ([tsp_solver.py])

    A shallow embedding of [euclidean_distance], [calculate_tour_distance]
    and [brute_force_tsp], and the properties of the search that the
    specification states; then of the loader [parse_tsp_file]
    ([tsp_parser.py]) and of [main], with further properties of all of them.

    Modelling conventions.
    - Vertex IDs are Python integers: [Z].
    - The coordinate dictionary is a finite map [gmap Z (R * R)]; the code
      only ever reads it through [sorted(coordinates.keys())] and
      [coordinates[k]], so insertion order plays no role.
    - Python floats are idealised as real numbers [R]: rounding, overflow and
      NaN are outside this model.  The one non-real float the code names,
      [float('inf')], is the extra point of [xreal].
    - [coordinates[k]] on an absent key raises [KeyError]; fallible code
      lives in the [result] monad.
    - [time.time()] is an oracle [clock : nat -> R]: [clock i] is what the
      [i]-th call returns.  Nothing is assumed about it.
    - [print] calls have no effect on the returned pair and are left out. *)

From Stdlib Require Import Reals Lra ZArith Lia Ascii.
From stdpp Require Import gmap list sorting strings.

Local Open Scope Z_scope.

(** ** Exceptions and the error monad *)

Inductive exn : Type :=
| KeyError (k : Z)
| IndexError.

Inductive result (A : Type) : Type :=
| Ok (a : A)
| Raise (e : exn).
Arguments Ok {A} a.
Arguments Raise {A} e.

#[global] Instance result_ret : MRet result := fun A a => Ok a.
#[global] Instance result_bind : MBind result := fun A B f r =>
  match r with
  | Ok a => f a
  | Raise e => Raise e
  end.


(** ** Numbers *)

Definition Rltb (a b : R) : bool := if Rlt_dec a b then true else false.

(** A float held by the search: a real, or [float('inf')]. *)
Inductive xreal : Type :=
| Finite (r : R)
| Infinity.

(** [d < b] for a finite [d]. *)
Definition xlt (d : R) (b : xreal) : bool :=
  match b with
  | Finite r => Rltb d r
  | Infinity => true
  end.

(** [a <= b] on [xreal], as a proposition. *)
Definition xle (a b : xreal) : Prop :=
  match a, b with
  | _, Infinity => True
  | Infinity, Finite _ => False
  | Finite x, Finite y => (x <= y)%R
  end.

Definition coord : Type := R * R.

(** ** Dictionary and list access *)

(** [coordinates[k]] *)
Definition getitem (coordinates : gmap Z coord) (k : Z) : result coord :=
  match coordinates !! k with
  | Some c => Ok c
  | None => Raise (KeyError k)
  end.

(** [tour[i]] for [0 <= i] *)
Definition index (tour : list Z) (i : nat) : result Z :=
  match tour !! i with
  | Some v => Ok v
  | None => Raise IndexError
  end.

(** [tour[-1]] *)
Definition index_last (tour : list Z) : result Z :=
  index tour (length tour - 1)%nat.

(** [sorted(coordinates.keys())]: the keys in ascending order. *)
Definition sorted_keys (coordinates : gmap Z coord) : list Z :=
  merge_sort Z.le (elements (dom coordinates)).

(** ** [euclidean_distance] *)

Definition euclidean_distance (coord1 coord2 : coord) : R :=
  let '(x1, y1) := coord1 in
  let '(x2, y2) := coord2 in
  sqrt ((x2 - x1) ^ 2 + (y2 - y1) ^ 2)%R.

(** ** [calculate_tour_distance] *)

(** [for i in range(...)] threading the accumulator [total_distance]. *)
Fixpoint for_range (range : list nat) (body : nat -> R -> result R) (acc : R)
  : result R :=
  match range with
  | [] => Ok acc
  | i :: range' => acc' ← body i acc; for_range range' body acc'
  end.

(** The loop body:
    [total_distance += euclidean_distance(coordinates[tour[i]],
                                          coordinates[tour[i + 1]])] *)
Definition add_edge (tour : list Z) (coordinates : gmap Z coord) (i : nat)
    (total_distance : R) : result R :=
  a ← index tour i;
  ca ← getitem coordinates a;
  b ← index tour (i + 1)%nat;
  cb ← getitem coordinates b;
  Ok (total_distance + euclidean_distance ca cb)%R.

Definition calculate_tour_distance (tour : list Z) (coordinates : gmap Z coord)
  : result R :=
  if (length tour <? 2)%nat then Ok 0%R
  else
    let total_distance := 0%R in
    total_distance ←
      for_range (seq 0 (length tour - 1)) (add_edge tour coordinates)
                total_distance;
    l ← index_last tour;
    cl ← getitem coordinates l;
    f ← index tour 0%nat;
    cf ← getitem coordinates f;
    Ok (total_distance + euclidean_distance cl cf)%R.

(** ** [itertools.permutations]

    The library generator yields the orderings of [pool] in lexicographic
    order of positions: first every ordering that starts with [pool[0]], then
    every ordering that starts with [pool[1]], and so on, the rest being
    ordered the same way. *)

Module itertools.

(** Each position of [pool]: the element there and the pool without it. *)
Fixpoint selections {A} (pool : list A) : list (A * list A) :=
  match pool with
  | [] => []
  | x :: pool' =>
      (x, pool') :: map (fun s => (s.1, x :: s.2)) (selections pool')
  end.

Fixpoint permutations_of_length {A} (r : nat) (pool : list A)
  : list (list A) :=
  match r with
  | O => [[]]
  | S r' =>
      flat_map (fun s => map (cons s.1) (permutations_of_length r' s.2))
               (selections pool)
  end.

Definition permutations {A} (pool : list A) : list (list A) :=
  permutations_of_length (length pool) pool.

End itertools.

(** ** [brute_force_tsp] *)

(** The variables the [for] loop updates, and the number of [time.time()]
    calls made so far. *)
Record loop_state : Type := LoopState {
  best_tour : option (list Z);
  best_distance : xreal;
  checked : Z;
  ticks : nat
}.

Inductive outcome : Type :=
| Continue (st : loop_state)
| Break (st : loop_state).

Definition check_interval : Z := 10000.

Section search_loop.

Variable coordinates : gmap Z coord.
Variable cutoff_time : R.
Variable clock : nat -> R.
Variable start_time : R.
Variable start_vertex : Z.

(** [checked == 1 or checked % check_interval == 0] *)
Definition time_check_due (checked : Z) : bool :=
  (checked =? 1) || (checked mod check_interval =? 0).

(** [elapsed > cutoff_time] at the [i]-th call of [time.time()] *)
Definition expired (i : nat) : bool :=
  let elapsed := (clock i - start_time)%R in
  Rltb cutoff_time elapsed.

(** The part of the loop body after the time check. *)
Definition evaluate (perm : list Z) (st : loop_state) : result loop_state :=
  let tour := start_vertex :: perm in
  distance ← calculate_tour_distance tour coordinates;
  if xlt distance (best_distance st)
  then Ok (LoopState (Some tour) (Finite distance) (checked st) (ticks st))
  else Ok st.

(** One execution of the loop body. *)
Definition iteration (perm : list Z) (st : loop_state) : result outcome :=
  let st := LoopState (best_tour st) (best_distance st) (checked st + 1)
                      (ticks st) in
  if time_check_due (checked st) then
    let i := ticks st in
    let st := LoopState (best_tour st) (best_distance st) (checked st)
                        (S i) in
    if expired i then Ok (Break st)
    else st' ← evaluate perm st; Ok (Continue st')
  else st' ← evaluate perm st; Ok (Continue st').

(** [for perm in permutations(remaining_vertices): ...] *)
Fixpoint loop (perms : list (list Z)) (st : loop_state) : result loop_state :=
  match perms with
  | [] => Ok st
  | perm :: perms' =>
      o ← iteration perm st;
      match o with
      | Break st' => Ok st'
      | Continue st' => loop perms' st'
      end
  end.

(** The candidate tours the loop evaluates, in order: those of the
    iterations that get past the time check. *)
Fixpoint history (perms : list (list Z)) (st : loop_state) : list (list Z) :=
  match perms with
  | [] => []
  | perm :: perms' =>
      match iteration perm st with
      | Ok (Continue st') => (start_vertex :: perm) :: history perms' st'
      | _ => []
      end
  end.

(** The code after the loop. *)
Definition finish (remaining_vertices : list Z) (st : loop_state)
  : result (list Z * xreal) :=
  match best_tour st with
  | None =>
      let best_tour := start_vertex :: remaining_vertices in
      best_distance ← calculate_tour_distance best_tour coordinates;
      Ok (best_tour, Finite best_distance)
  | Some best_tour => Ok (best_tour, best_distance st)
  end.

End search_loop.

Definition initial_state : loop_state := LoopState None Infinity 0 1.

Definition brute_force_tsp (coordinates : gmap Z coord) (cutoff_time : R)
    (clock : nat -> R) : result (list Z * xreal) :=
  let start_time := clock 0%nat in
  let vertices := sorted_keys coordinates in
  match vertices with
  | [] => Ok ([], Finite 0)
  | [_] => Ok (vertices, Finite 0)
  | start_vertex :: remaining_vertices =>
      st ← loop coordinates cutoff_time clock start_time start_vertex
               (itertools.permutations remaining_vertices) initial_state;
      finish coordinates start_vertex remaining_vertices st
  end.

(** The candidate tours of the search, in enumeration order, and those it
    evaluates before it returns. *)
Definition candidates (coordinates : gmap Z coord) : list (list Z) :=
  match sorted_keys coordinates with
  | start_vertex :: (_ :: _) as remaining_vertices =>
      map (cons start_vertex) (itertools.permutations remaining_vertices)
  | _ => []
  end.

Definition candidates_evaluated (coordinates : gmap Z coord) (cutoff_time : R)
    (clock : nat -> R) : list (list Z) :=
  match sorted_keys coordinates with
  | start_vertex :: (_ :: _) as remaining_vertices =>
      history coordinates cutoff_time clock (clock 0%nat) start_vertex
              (itertools.permutations remaining_vertices) initial_state
  | _ => []
  end.

(** ** The tour length as the specification words it

    The sum of the distances between consecutive points, plus the closing
    edge from the last point back to the first; [0] below two points. *)

Fixpoint consecutive_edges (pts : list coord) : R :=
  match pts with
  | a :: (b :: _) as pts' => euclidean_distance a b + consecutive_edges pts'
  | _ => 0
  end.

Definition closing_edge (pts : list coord) : R :=
  match last pts, head pts with
  | Some l, Some f => euclidean_distance l f
  | _, _ => 0
  end.

Definition tourLength (pts : list coord) : R :=
  if (length pts <? 2)%nat then 0%R
  else (consecutive_edges pts + closing_edge pts)%R.

(** [pts] are the coordinates of the vertices of [tour], all of them keys. *)
Definition located (coordinates : gmap Z coord) (tour : list Z)
    (pts : list coord) : Prop :=
  Forall2 (fun v c => coordinates !! v = Some c) tour pts.

(** ** The incumbent

    [first_best hist i tour d]: [tour], of distance [d], is at position [i] of
    [hist], no tour of [hist] is shorter, and every earlier one is strictly
    longer. *)
Definition first_best (coordinates : gmap Z coord) (hist : list (list Z))
    (i : nat) (tour : list Z) (d : R) : Prop :=
  hist !! i = Some tour /\
  calculate_tour_distance tour coordinates = Ok d /\
  forall j tour' d',
    hist !! j = Some tour' ->
    calculate_tour_distance tour' coordinates = Ok d' ->
    (d <= d')%R /\ ((j < i)%nat -> (d < d')%R).

(** [st] holds the incumbent of the candidates [hist] evaluated so far:
    [(None, inf)] when there are none, else the first of the best. *)
Definition incumbent_of (coordinates : gmap Z coord) (hist : list (list Z))
    (st : loop_state) : Prop :=
  match best_tour st with
  | None => best_distance st = Infinity /\ hist = []
  | Some tour =>
      exists i d, best_distance st = Finite d /\
                  first_best coordinates hist i tour d
  end.

(** The state an iteration leaves on [break]. *)
Definition stopped (st : loop_state) : loop_state :=
  LoopState (best_tour st) (best_distance st) (checked st + 1) (S (ticks st)).

(** The state an iteration ends in. *)
Definition state_of (o : outcome) : loop_state :=
  match o with
  | Continue st => st
  | Break st => st
  end.

(** The state once an iteration has counted itself and, if the check is
    due, read the clock. *)
Definition entered (st : loop_state) : loop_state :=
  LoopState (best_tour st) (best_distance st) (checked st + 1)
            (if time_check_due (checked st + 1) then S (ticks st)
             else ticks st).

(** ** Small instances

    Cities on a vertical line.  In [line3] both candidate tours have length
    4; in [line4] the first candidate (length 8) is not the best (6). *)
Definition line3 : gmap Z coord :=
  <[3 := (0, 2)%R]> (<[1 := (0, 0)%R]> (<[2 := (0, 1)%R]> ∅)).

Definition line4 : gmap Z coord :=
  <[1 := (0, 0)%R]> (<[2 := (0, 2)%R]> (<[3 := (0, 1)%R]>
    (<[4 := (0, 3)%R]> ∅))).

(** A clock that stands still, and one that advances a second per call. *)
Definition frozen_clock : nat -> R := fun _ => 0%R.
Definition ticking_clock : nat -> R := INR.

(** * The loader and the command line ([tsp_parser.py], [main])

    The file is given as the list of its lines, as iterating over the open
    file yields them.  The string built-ins the parser calls are taken as
    they are, without a model of their own: what is proved of the parser
    holds whatever they compute.  [int] and [float] return [None] where
    Python raises [ValueError]; a float is a real, as before. *)

Module tsp_parser.

Record builtins : Type := Builtins {
  strip : string -> string;                   (* [s.strip()] *)
  split : string -> list string;              (* [s.split()] *)
  split_colon : string -> list string;        (* [s.split(':', 1)] *)
  startswith : string -> string -> bool;      (* [s.startswith(prefix)] *)
  int : string -> option Z;                   (* [int(s)] *)
  float : string -> option R                  (* [float(s)] *)
}.

Inductive error : Type :=
| ValueError
| IndexError.

Inductive outcome (A : Type) : Type :=
| Return (a : A)
| Raise (e : error).
Arguments Return {A} a.
Arguments Raise {A} e.

#[global] Instance outcome_ret : MRet outcome := fun A a => Return a.
#[global] Instance outcome_bind : MBind outcome := fun A B f r =>
  match r with
  | Return a => f a
  | Raise e => Raise e
  end.

(** [parts[i]] *)
Definition item (parts : list string) (i : nat) : outcome string :=
  match parts !! i with
  | Some s => Return s
  | None => Raise IndexError
  end.

(** A conversion that raises [ValueError] where it has no value. *)
Definition convert {A} (conversion : string -> option A) (s : string)
  : outcome A :=
  match conversion s with
  | Some a => Return a
  | None => Raise ValueError
  end.

(** The variables of [parse_tsp_file]. *)
Record state : Type := State {
  coordinates : gmap Z coord;
  instance_name : option string;
  dimension : option Z;
  in_coord_section : bool
}.

Definition initial : state := State ∅ None None false.

Section parser.

Variable b : builtins.

(** The last [if] of the loop body: a line of the coordinate section with
    three or more fields stores a city. *)
Definition store (line : string) (st : state) : outcome state :=
  if in_coord_section st then
    let parts := split b line in
    if (3 <=? length parts)%nat then
      p0 ← item parts 0; vertex_id ← convert (int b) p0;
      p1 ← item parts 1; x ← convert (float b) p1;
      p2 ← item parts 2; y ← convert (float b) p2;
      Return (State (<[vertex_id := (x, y)]> (coordinates st))
                    (instance_name st) (dimension st) (in_coord_section st))
    else Return st
  else Return st.

(** The [if]/[elif] chain on a line that is neither blank nor [EOF]: the
    state it leaves, or [None] where it says [continue]. *)
Definition header (line : string) (st : state) : outcome (option state) :=
  if startswith b line "NAME:" then
    rest ← item (split_colon b line) 1;
    Return (Some (State (coordinates st) (Some (strip b rest)) (dimension st)
                        (in_coord_section st)))
  else if startswith b line "DIMENSION:" then
    rest ← item (split_colon b line) 1;
    n ← convert (int b) (strip b rest);
    Return (Some (State (coordinates st) (instance_name st) (Some n)
                        (in_coord_section st)))
  else if bool_decide (line = "NODE_COORD_SECTION"%string) then
    Return None
  else Return (Some st).

(** [not line or line == 'EOF'] *)
Definition terminator (line : string) : bool :=
  bool_decide (line = ""%string) || bool_decide (line = "EOF"%string).

(** [for line in f: ...] *)
Fixpoint read (lines : list string) (st : state) : outcome state :=
  match lines with
  | [] => Return st
  | line :: lines' =>
      let line := strip b line in
      if terminator line then
        if in_coord_section st then Return st else read lines' st
      else
        o ← header line st;
        match o with
        | None =>
            read lines' (State (coordinates st) (instance_name st)
                               (dimension st) true)
        | Some st1 => st2 ← store line st1; read lines' st2
        end
  end.

Definition parse_tsp_file (lines : list string)
  : outcome (string * Z * gmap Z coord) :=
  st ← read lines initial;
  match instance_name st, dimension st with
  | Some name, Some n =>
      if bool_decide (coordinates st = ∅) then Raise ValueError
      else Return (name, n, coordinates st)
  | _, _ => Raise ValueError
  end.

End parser.

(** A line opens the coordinate section. *)
Definition opens_section (b : builtins) (line : string) : Prop :=
  strip b line = "NODE_COORD_SECTION"%string.

(** A line of the coordinate section that stores city [v] at [c]. *)
Definition city_line (b : builtins) (line : string) (v : Z) (c : coord)
  : Prop :=
  exists p0 p1 p2 rest,
    split b (strip b line) = p0 :: p1 :: p2 :: rest /\
    int b p0 = Some v /\ float b p1 = Some c.1 /\ float b p2 = Some c.2.

End tsp_parser.

(** ** [main]

    The parsed arguments, the file [DATA/<inst>.tsp] ([None] if it does not
    exist) and the clock go in; what comes out is [sys.exit(1)] or the call
    of [write_solution_file] that ends a successful run. *)





(** *** A reading of the built-ins on plain ASCII text, to run the parser:
    fields are separated by blanks and numbers are written as integers. *)

Fixpoint lstrip (s : string) : string :=
  match s with
  | String a s' => if Ascii.is_space a then lstrip s' else s
  | EmptyString => s
  end.

Definition ascii_strip (s : string) : string :=
  String.rev (lstrip (String.rev (lstrip s))).

Fixpoint ascii_split_colon (s : string) : list string :=
  match s with
  | EmptyString => [EmptyString]
  | String a s' =>
      if bool_decide (a = ":"%char) then [EmptyString; s']
      else match ascii_split_colon s' with
           | s1 :: rest => String a s1 :: rest
           | [] => []
           end
  end.

Fixpoint digits (s : string) (acc : N) : option N :=
  match s with
  | EmptyString => Some acc
  | String a s' =>
      match Ascii.is_nat a with
      | Some d => digits s' (10 * acc + N.of_nat d)%N
      | None => None
      end
  end.

Definition ascii_int (s : string) : option Z :=
  match s with
  | EmptyString => None
  | String "-" (String _ _ as s') => Z.opp <$> (Z.of_N <$> digits s' 0%N)
  | _ => Z.of_N <$> digits s 0%N
  end.

Definition ascii_builtins : tsp_parser.builtins :=
  tsp_parser.Builtins ascii_strip String.words ascii_split_colon
                      (fun s prefix => String.prefix prefix s)
                      ascii_int (fun s => IZR <$> ascii_int s).

(** The three cities of [line3] as a file. *)
Definition line3_file : list string :=
  ["NAME: line3"; "COMMENT: three cities on a line"; "DIMENSION: 3";
   "NODE_COORD_SECTION"; "1 0 0"; "2 0 1"; "3 0 2"; "EOF"; "4 9 9"]%string.

(** *** More small instances, to run the further properties *)

(** [line3] with a fourth city that no tour of the first three visits. *)
Definition line3_more : gmap Z coord := <[9 := (5, 5)%R]> line3.


(** A file that never opens the coordinate section. *)
Definition headless_file : list string :=
  ["NAME: headless"; "DIMENSION: 1"; "1 0 0"; "EOF"]%string.

(** * Properties *)

(** ** The error monad *)

Lemma bind_Ok {A B} (f : A -> result B) (a : A) : (Ok a ≫= f) = f a.
Proof. reflexivity. Qed.


Lemma bind_Ok_inv {A B} (f : A -> result B) (r : result A) (b : B) :
  (r ≫= f) = Ok b -> exists a, r = Ok a /\ f a = Ok b.
Proof. destruct r as [a|e]; [eauto | discriminate]. Qed.

(** ** Real comparisons *)

Lemma Rltb_true a b : Rltb a b = true <-> (a < b)%R.
Proof. unfold Rltb. destruct (Rlt_dec a b); split; auto; discriminate. Qed.

Lemma Rltb_false a b : Rltb a b = false <-> (b <= a)%R.
Proof.
  unfold Rltb. destruct (Rlt_dec a b); split; auto; try discriminate; lra.
Qed.

Lemma xlt_true d b : xlt d b = true -> ~ xle b (Finite d).
Proof. destruct b as [r|]; simpl; [rewrite Rltb_true; lra | tauto]. Qed.

Lemma xlt_false d b : xlt d b = false -> xle b (Finite d).
Proof. destruct b as [r|]; simpl; [rewrite Rltb_false; lra | discriminate]. Qed.

(** ** Dictionary and list access *)

Lemma getitem_Ok coordinates k c :
  coordinates !! k = Some c -> getitem coordinates k = Ok c.
Proof. unfold getitem. by intros ->. Qed.


Lemma index_Ok (tour : list Z) i v : tour !! i = Some v -> index tour i = Ok v.
Proof. unfold index. by intros ->. Qed.

Lemma located_length coordinates tour pts :
  located coordinates tour pts -> length tour = length pts.
Proof. apply Forall2_length. Qed.

Lemma located_lookup coordinates tour pts i v :
  located coordinates tour pts -> tour !! i = Some v ->
  exists c, pts !! i = Some c /\ coordinates !! v = Some c.
Proof. intros H Hv. eapply Forall2_lookup_l in H as (c & ? & ?); eauto. Qed.

Lemma located_exists coordinates (tour : list Z) :
  (forall v, v ∈ tour -> is_Some (coordinates !! v)) ->
  exists pts, located coordinates tour pts.
Proof.
  induction tour as [|v tour IH]; intros H.
  - exists []. constructor.
  - destruct (H v) as [c Hc]; [left|].
    destruct IH as [pts Hpts]; [intros; apply H; by right|].
    exists (c :: pts). by constructor.
Qed.

Lemma located_functional coordinates tour pts pts' :
  located coordinates tour pts -> located coordinates tour pts' -> pts = pts'.
Proof.
  intros H. revert pts'. induction H as [|v c tour pts Hc _ IH]; intros pts' H'.
  - by inversion H'.
  - inversion H' as [|? c' ? pts'' Hc' Hrest]; subst.
    f_equal; [congruence | by apply IH].
Qed.


Lemma located_all coordinates tour pts v :
  located coordinates tour pts -> v ∈ tour -> is_Some (coordinates !! v).
Proof.
  intros H Hv. apply list_elem_of_lookup in Hv as [i Hi].
  destruct (located_lookup _ _ _ _ _ H Hi) as (c & _ & ?). eauto.
Qed.

(** ** [calculate_tour_distance] on a tour whose vertices are all keys *)

Lemma add_edge_located coordinates tour pts i a b acc :
  located coordinates tour pts ->
  pts !! i = Some a -> pts !! S i = Some b ->
  add_edge tour coordinates i acc = Ok (acc + euclidean_distance a b)%R.
Proof.
  intros Hloc Ha Hb. unfold add_edge.
  destruct (Forall2_lookup_r _ _ _ _ _ Hloc Ha) as (va & Hva & Hca).
  destruct (Forall2_lookup_r _ _ _ _ _ Hloc Hb) as (vb & Hvb & Hcb).
  rewrite (index_Ok _ _ _ Hva), bind_Ok, (getitem_Ok _ _ _ Hca), bind_Ok.
  replace (i + 1)%nat with (S i) by lia.
  by rewrite (index_Ok _ _ _ Hvb), bind_Ok, (getitem_Ok _ _ _ Hcb), bind_Ok.
Qed.

Lemma for_range_edges coordinates tour pts :
  located coordinates tour pts ->
  forall k i acc, (i + k < length pts)%nat ->
  for_range (seq i k) (add_edge tour coordinates) acc
  = Ok (acc + consecutive_edges (take (S k) (drop i pts)))%R.
Proof.
  intros Hloc. induction k as [|k IH]; intros i acc Hik.
  - simpl. destruct (drop i pts) as [|c ?]; simpl; f_equal; lra.
  - destruct (lookup_lt_is_Some_2 pts i) as [a Ha]; [lia|].
    destruct (lookup_lt_is_Some_2 pts (S i)) as [b Hb]; [lia|].
    cbn [seq for_range].
    rewrite (add_edge_located _ _ _ _ _ _ _ Hloc Ha Hb), bind_Ok.
    rewrite IH by lia.
    rewrite (drop_S _ _ _ Ha), (drop_S _ _ _ Hb).
    f_equal. cbn [take consecutive_edges]. lra.
Qed.

Lemma calculate_tour_distance_located coordinates tour pts :
  located coordinates tour pts ->
  calculate_tour_distance tour coordinates = Ok (tourLength pts).
Proof.
  intros Hloc. unfold calculate_tour_distance, tourLength.
  rewrite <- (located_length _ _ _ Hloc).
  destruct (length tour <? 2)%nat eqn:Hlen; [done|].
  apply Nat.ltb_ge in Hlen.
  pose proof (located_length _ _ _ Hloc) as Hlp.
  rewrite (for_range_edges _ _ _ Hloc) by lia.
  rewrite bind_Ok, drop_0, take_ge by lia.
  destruct (lookup_lt_is_Some_2 pts (length tour - 1)) as [cl Hcl]; [lia|].
  destruct (lookup_lt_is_Some_2 pts 0) as [cf Hcf]; [lia|].
  destruct (Forall2_lookup_r _ _ _ _ _ Hloc Hcl) as (vl & Hvl & Hl).
  destruct (Forall2_lookup_r _ _ _ _ _ Hloc Hcf) as (vf & Hvf & Hf).
  unfold index_last.
  rewrite (index_Ok _ _ _ Hvl), bind_Ok, (getitem_Ok _ _ _ Hl), bind_Ok.
  rewrite (index_Ok _ _ _ Hvf), bind_Ok, (getitem_Ok _ _ _ Hf), bind_Ok.
  unfold closing_edge.
  rewrite last_lookup, head_lookup, <- Hlp.
  replace (pred (length tour)) with (length tour - 1)%nat by lia.
  rewrite Hcl, Hcf. f_equal. lra.
Qed.

(** ** When [calculate_tour_distance] raises *)

Ltac bind_inv H :=
  let a := fresh "a" in
  let Ha := fresh "Ha" in
  apply bind_Ok_inv in H as (a & Ha & H).

Lemma getitem_Ok_inv coordinates k c :
  getitem coordinates k = Ok c -> coordinates !! k = Some c.
Proof. unfold getitem. destruct (coordinates !! k); congruence. Qed.

Lemma index_Ok_inv (tour : list Z) i v : index tour i = Ok v -> tour !! i = Some v.
Proof. unfold index. destruct (tour !! i); congruence. Qed.

Lemma add_edge_Ok_inv tour coordinates i acc r :
  add_edge tour coordinates i acc = Ok r ->
  exists a b, tour !! i = Some a /\ is_Some (coordinates !! a) /\
              tour !! S i = Some b /\ is_Some (coordinates !! b).
Proof.
  unfold add_edge. intros H.
  bind_inv H. bind_inv H. bind_inv H. bind_inv H.
  replace (i + 1)%nat with (S i) in * by lia.
  repeat match goal with
         | H : index _ _ = Ok _ |- _ => apply index_Ok_inv in H
         | H : getitem _ _ = Ok _ |- _ => apply getitem_Ok_inv in H
         end.
  eauto 10.
Qed.

Lemma for_range_Ok_inv tour coordinates k :
  forall i acc r,
  for_range (seq i k) (add_edge tour coordinates) acc = Ok r ->
  forall j, (i <= j < i + k)%nat ->
  exists a b, tour !! j = Some a /\ is_Some (coordinates !! a) /\
              tour !! S j = Some b /\ is_Some (coordinates !! b).
Proof.
  induction k as [|k IH]; intros i acc r H j Hj; [lia|].
  cbn [seq for_range] in H. bind_inv H.
  destruct (decide (j = i)) as [->|Hne].
  - eapply add_edge_Ok_inv; eauto.
  - eapply IH; [exact H | lia].
Qed.

(** A tour of two or more vertices is measured only if all its vertices are
    keys. *)
Lemma calculate_tour_distance_Ok_keys tour coordinates r :
  (2 <= length tour)%nat ->
  calculate_tour_distance tour coordinates = Ok r ->
  forall v, v ∈ tour -> is_Some (coordinates !! v).
Proof.
  intros Hlen H v Hv. unfold calculate_tour_distance in H.
  apply Nat.ltb_ge in Hlen as Hlt. rewrite Hlt in H. cbv zeta in H.
  bind_inv H. clear H.
  apply list_elem_of_lookup in Hv as [j Hj].
  pose proof (lookup_lt_Some _ _ _ Hj) as Hjlt.
  destruct (decide (j < length tour - 1)%nat) as [Hin|Hlast].
  - destruct (for_range_Ok_inv _ _ _ _ _ _ Ha j) as (a' & b & Hja & Hpa & _);
      [lia|]. congruence.
  - destruct (for_range_Ok_inv _ _ _ _ _ _ Ha (j - 1)%nat)
      as (a' & b & _ & _ & Hjb & Hpb); [lia|].
    replace (S (j - 1)) with j in Hjb by lia. congruence.
Qed.




(** ** [itertools.permutations] enumerates exactly the orderings *)

Section permutations_facts.

Context {A : Type}.
Implicit Types (pool p : list A) (s : A * list A).

Import itertools.

Lemma elem_of_flat_map {B C} (f : B -> list C) (l : list B) (y : C) :
  y ∈ flat_map f l <-> exists x, x ∈ l /\ y ∈ f x.
Proof.
  rewrite list_elem_of_In, in_flat_map.
  split; intros (x & ? & ?); exists x; by rewrite ?list_elem_of_In in *.
Qed.

Lemma selections_sound pool s : s ∈ selections pool -> pool ≡ₚ s.1 :: s.2.
Proof.
  revert s. induction pool as [|x pool IH]; intros s Hs; simpl in Hs.
  - by apply elem_of_nil in Hs.
  - apply elem_of_cons in Hs as [->|Hs]; [done|].
    apply list_elem_of_fmap in Hs as (s' & -> & Hs'). simpl.
    rewrite (IH _ Hs'). apply Permutation_swap.
Qed.

Lemma selections_complete pool1 x pool2 :
  (x, pool1 ++ pool2) ∈ selections (pool1 ++ x :: pool2).
Proof.
  induction pool1 as [|y pool1 IH]; simpl; [left|].
  right. apply list_elem_of_fmap. by exists (x, pool1 ++ pool2).
Qed.

Lemma selections_length pool : length (selections pool) = length pool.
Proof.
  induction pool as [|x pool IH]; simpl; [done|].
  by rewrite length_map, IH.
Qed.

Lemma permutations_of_length_sound r :
  forall pool p, length pool = r ->
  p ∈ permutations_of_length r pool -> pool ≡ₚ p.
Proof.
  induction r as [|r IH]; intros pool p Hlen Hp; simpl in Hp.
  - apply list_elem_of_singleton in Hp as ->.
    by apply nil_length_inv in Hlen as ->.
  - apply elem_of_flat_map in Hp as (s & Hs & Hp).
    apply list_elem_of_fmap in Hp as (p' & -> & Hp').
    pose proof (selections_sound _ _ Hs) as Hperm.
    rewrite Hperm. constructor. apply IH; [|done].
    apply Permutation_length in Hperm. simpl in Hperm. lia.
Qed.

Lemma permutations_of_length_complete r :
  forall pool p, length pool = r ->
  pool ≡ₚ p -> p ∈ permutations_of_length r pool.
Proof.
  induction r as [|r IH]; intros pool p Hlen Hperm; simpl.
  - apply nil_length_inv in Hlen as ->.
    apply Permutation_nil_l in Hperm as ->. left.
  - destruct p as [|x p'].
    { apply Permutation_nil_r in Hperm. subst. discriminate. }
    assert (x ∈ pool) as Hx by (rewrite Hperm; left).
    apply list_elem_of_split in Hx as (pool1 & pool2 & ->).
    apply elem_of_flat_map. exists (x, pool1 ++ pool2). split.
    + apply selections_complete.
    + simpl. apply list_elem_of_fmap. exists p'. split; [done|].
      apply IH.
      * rewrite length_app in *. simpl in Hlen. lia.
      * apply (Permutation_cons_inv (a := x)).
        by rewrite <- Hperm, Permutation_middle.
Qed.

(** An ordering is enumerated if and only if it is a permutation of the
    pool. *)
Lemma elem_of_permutations pool p : p ∈ permutations pool <-> pool ≡ₚ p.
Proof.
  split.
  - by apply permutations_of_length_sound.
  - by apply permutations_of_length_complete.
Qed.

Lemma length_flat_map_const {B C} (f : B -> list C) (l : list B) (c : nat) :
  (forall x, x ∈ l -> length (f x) = c) ->
  length (flat_map f l) = (length l * c)%nat.
Proof.
  induction l as [|x l IH]; intros H; simpl; [done|].
  rewrite length_app, H, IH; [done| |left].
  intros; apply H; by right.
Qed.

Lemma permutations_of_length_length r :
  forall pool, length pool = r ->
  length (permutations_of_length r pool) = fact r.
Proof.
  induction r as [|r IH]; intros pool Hlen; simpl; [done|].
  rewrite (length_flat_map_const _ _ (fact r)).
  - rewrite selections_length, Hlen. simpl. lia.
  - intros s Hs. rewrite length_map. apply IH.
    apply selections_sound, Permutation_length in Hs. simpl in Hs. lia.
Qed.

(** There are [n!] of them. *)
Lemma permutations_length pool :
  length (permutations pool) = fact (length pool).
Proof. by apply permutations_of_length_length. Qed.

Lemma permutations_nonempty pool : permutations pool <> [].
Proof.
  intros H. pose proof (permutations_length pool) as Hl.
  rewrite H in Hl. simpl in Hl. pose proof (lt_O_fact (length pool)). lia.
Qed.

End permutations_facts.

(** ** [sorted(coordinates.keys())] *)

Lemma sorted_keys_Permutation coordinates :
  sorted_keys coordinates ≡ₚ elements (dom coordinates).
Proof. apply merge_sort_Permutation. Qed.

Lemma elem_of_sorted_keys coordinates v :
  v ∈ sorted_keys coordinates <-> is_Some (coordinates !! v).
Proof.
  by rewrite sorted_keys_Permutation, elem_of_elements, elem_of_dom.
Qed.

Lemma sorted_keys_NoDup coordinates : NoDup (sorted_keys coordinates).
Proof. rewrite sorted_keys_Permutation. apply NoDup_elements. Qed.

Lemma sorted_keys_length coordinates :
  length (sorted_keys coordinates) = size coordinates.
Proof.
  rewrite sorted_keys_Permutation. fold (size (dom coordinates)).
  apply size_dom.
Qed.

Lemma sorted_keys_sorted coordinates :
  StronglySorted Z.le (sorted_keys coordinates).
Proof. apply StronglySorted_merge_sort; apply _. Qed.

Lemma sorted_keys_nil coordinates :
  sorted_keys coordinates = [] <-> coordinates = ∅.
Proof.
  rewrite <- map_size_empty_iff, <- sorted_keys_length. split.
  - by intros ->.
  - apply nil_length_inv.
Qed.

(** The first sorted key is the smallest vertex ID. *)
Lemma sorted_keys_head_least coordinates start_vertex remaining_vertices v :
  sorted_keys coordinates = start_vertex :: remaining_vertices ->
  is_Some (coordinates !! v) -> start_vertex <= v.
Proof.
  intros Hk Hv. apply elem_of_sorted_keys in Hv.
  pose proof (sorted_keys_sorted coordinates) as Hs. rewrite Hk in Hs, Hv.
  apply StronglySorted_inv in Hs as [_ Hall].
  apply elem_of_cons in Hv as [->|Hv]; [lia|].
  by eapply Forall_forall in Hall.
Qed.

(** ** The tour length does not depend on where the cycle starts *)


Lemma euclidean_distance_nonneg c1 c2 : (0 <= euclidean_distance c1 c2)%R.
Proof. destruct c1, c2. apply sqrt_pos. Qed.





Lemma tourLength_nonneg pts : (0 <= tourLength pts)%R.
Proof.
  unfold tourLength. destruct (length pts <? 2)%nat; [lra|].
  assert (0 <= consecutive_edges pts)%R.
  { induction pts as [|a [|b pts] IH]; simpl; try lra.
    pose proof (euclidean_distance_nonneg a b). simpl in IH. lra. }
  assert (0 <= closing_edge pts)%R.
  { unfold closing_edge. destruct (last pts), (head pts); try lra.
    apply euclidean_distance_nonneg. }
  lra.
Qed.

(** ** The loop *)

Section loop_facts.

Variable coordinates : gmap Z coord.
Variable cutoff_time : R.
Variable clock : nat -> R.
Variable start_time : R.
Variable start_vertex : Z.

Local Abbreviation evaluate' := (evaluate coordinates start_vertex).
Local Abbreviation expired' := (expired cutoff_time clock start_time).
Local Abbreviation iteration' :=
  (iteration coordinates cutoff_time clock start_time start_vertex).
Local Abbreviation loop' :=
  (loop coordinates cutoff_time clock start_time start_vertex).
Local Abbreviation history' :=
  (history coordinates cutoff_time clock start_time start_vertex).
Local Abbreviation measured tour :=
  (exists d, calculate_tour_distance tour coordinates = Ok d).

Lemma incumbent_of_ext hist st st' :
  best_tour st' = best_tour st -> best_distance st' = best_distance st ->
  incumbent_of coordinates hist st -> incumbent_of coordinates hist st'.
Proof. unfold incumbent_of. by intros -> ->. Qed.

Lemma evaluate_eq perm st d :
  calculate_tour_distance (start_vertex :: perm) coordinates = Ok d ->
  evaluate' perm st
  = Ok (if xlt d (best_distance st)
        then LoopState (Some (start_vertex :: perm)) (Finite d)
                       (checked st) (ticks st)
        else st).
Proof.
  intros Hd. unfold evaluate. rewrite Hd, bind_Ok.
  by destruct (xlt d (best_distance st)).
Qed.


(** Evaluating one more candidate keeps the first of the best. *)
Lemma evaluate_incumbent perm st hist d :
  calculate_tour_distance (start_vertex :: perm) coordinates = Ok d ->
  incumbent_of coordinates hist st ->
  exists st',
    evaluate' perm st = Ok st' /\
    incumbent_of coordinates (hist ++ [start_vertex :: perm]) st' /\
    checked st' = checked st /\ ticks st' = ticks st.
Proof.
  intros Hd Hinc. rewrite (evaluate_eq _ _ _ Hd).
  eexists; split; [reflexivity|].
  unfold incumbent_of in *.
  destruct (xlt d (best_distance st)) eqn:Hlt; cbn [best_tour best_distance].
  - split; [|done].
    exists (length hist), d. split; [done|]. split; [|split; [done|]].
    { by rewrite lookup_app_r, Nat.sub_diag by lia. }
    intros j tour' d' Hj Hd'.
    destruct (decide (j < length hist)%nat) as [Hin|Hout].
    + rewrite lookup_app_l in Hj by done.
      destruct (best_tour st) as [tour|].
      * destruct Hinc as (i & b & Hb & _ & _ & Hmin).
        rewrite Hb in Hlt. simpl in Hlt. apply Rltb_true in Hlt.
        destruct (Hmin _ _ _ Hj Hd') as [Hle _]. split; [|intros _]; lra.
      * destruct Hinc as [_ ->]. simpl in Hin. lia.
    + pose proof (lookup_lt_Some _ _ _ Hj) as Hjlt.
      rewrite length_app in Hjlt. simpl in Hjlt.
      assert (j = length hist) as -> by lia.
      rewrite lookup_app_r, Nat.sub_diag in Hj by lia.
      injection Hj as <-. rewrite Hd in Hd'. injection Hd' as <-.
      split; [lra | lia].
  - split; [|done].
    destruct (best_tour st) as [tour|].
    + destruct Hinc as (i & b & Hb & Hi & Hdb & Hmin).
      rewrite Hb in Hlt. simpl in Hlt. apply Rltb_false in Hlt.
      pose proof (lookup_lt_Some _ _ _ Hi) as Hilt.
      exists i, b. split; [done|]. split; [|split; [done|]].
      { by rewrite lookup_app_l. }
      intros j tour' d' Hj Hd'.
      destruct (decide (j < length hist)%nat) as [Hin|Hout].
      * rewrite lookup_app_l in Hj by done. eauto.
      * pose proof (lookup_lt_Some _ _ _ Hj) as Hjlt.
        rewrite length_app in Hjlt. simpl in Hjlt.
        assert (j = length hist) as -> by lia.
        rewrite lookup_app_r, Nat.sub_diag in Hj by lia.
        injection Hj as <-. rewrite Hd in Hd'. injection Hd' as <-.
        split; [lra | lia].
    + destruct Hinc as [Hinf _]. rewrite Hinf in Hlt. discriminate.
Qed.

(** One iteration: either the time check is due and observes the budget
    exceeded, and the loop is left with the incumbent untouched; or the
    candidate is evaluated. *)
Lemma iteration_cases perm st hist :
  measured (start_vertex :: perm) ->
  incumbent_of coordinates hist st ->
  (time_check_due (checked st + 1) = true /\ expired' (ticks st) = true /\
   iteration' perm st = Ok (Break (stopped st))) \/
  (exists st',
     iteration' perm st = Ok (Continue st') /\
     incumbent_of coordinates (hist ++ [start_vertex :: perm]) st' /\
     checked st' = checked st + 1 /\
     (ticks st <= ticks st')%nat).
Proof.
  intros [d Hd] Hinc. unfold iteration.
  cbn [best_tour best_distance checked ticks].
  destruct (time_check_due (checked st + 1)) eqn:Hdue.
  - destruct (expired' (ticks st)) eqn:Hexp; [by left|].
    right.
    edestruct (evaluate_incumbent perm
                 (LoopState (best_tour st) (best_distance st)
                            (checked st + 1) (S (ticks st))) hist d)
      as (st' & -> & ? & Hc & Ht); [done|by eapply incumbent_of_ext|].
    exists st'. simpl in Hc, Ht. rewrite bind_Ok.
    repeat split; [done|done|lia].
  - right.
    edestruct (evaluate_incumbent perm
                 (LoopState (best_tour st) (best_distance st)
                            (checked st + 1) (ticks st)) hist d)
      as (st' & -> & ? & Hc & Ht); [done|by eapply incumbent_of_ext|].
    exists st'. simpl in Hc, Ht. rewrite bind_Ok.
    repeat split; [done|done|lia].
Qed.

(** The loop returns, holding the incumbent of what it evaluated. *)
Lemma loop_incumbent perms :
  forall st hist,
  Forall (fun perm => measured (start_vertex :: perm)) perms ->
  incumbent_of coordinates hist st ->
  exists st',
    loop' perms st = Ok st' /\
    incumbent_of coordinates (hist ++ history' perms st) st' /\
    checked st <= checked st' <= checked st + Z.of_nat (length perms).
Proof.
  induction perms as [|perm perms IH]; intros st hist Hall Hinc.
  - exists st. simpl. rewrite app_nil_r. repeat split; [done|lia..].
  - apply Forall_cons in Hall as [Hperm Hall].
    cbn [loop history].
    destruct (iteration_cases perm st hist Hperm Hinc)
      as [(_ & _ & ->)|(st1 & -> & Hinc1 & Hc1 & _)].
    + rewrite bind_Ok. exists (stopped st). rewrite app_nil_r.
      split; [done|]. split; [by eapply incumbent_of_ext|].
      simpl. lia.
    + rewrite bind_Ok.
      destruct (IH st1 _ Hall Hinc1) as (st' & -> & Hinc' & Hc').
      exists st'. split; [done|].
      rewrite <- app_assoc in Hinc'. split; [done|].
      rewrite length_cons. lia.
Qed.

(** What is evaluated is an initial part of the enumeration. *)
Lemma history_prefix perms :
  forall st, history' perms st `prefix_of` map (cons start_vertex) perms.
Proof.
  induction perms as [|perm perms IH]; intros st; [done|].
  cbn [history map].
  destruct (iteration' perm st) as [[st1|st1]|e];
    [|apply prefix_nil..].
  apply prefix_cons, IH.
Qed.

Lemma history_length perms st :
  (length (history' perms st) <= length perms)%nat.
Proof.
  pose proof (prefix_length _ _ (history_prefix perms st)) as H.
  by rewrite length_map in H.
Qed.

(** A due time check that observes the budget exceeded ends the loop at
    once: nothing more is evaluated. *)
Lemma loop_break perm perms st :
  time_check_due (checked st + 1) = true ->
  expired' (ticks st) = true ->
  loop' (perm :: perms) st = Ok (stopped st) /\
  history' (perm :: perms) st = [].
Proof.
  intros Hdue Hexp.
  assert (iteration' perm st = Ok (Break (stopped st))) as Hit.
  { unfold iteration. cbn [best_tour best_distance checked ticks].
    by rewrite Hdue, Hexp. }
  cbn [loop history]. by rewrite Hit.
Qed.

End loop_facts.

(** ** The search *)

Lemma keys_measured coordinates tour :
  (forall v, v ∈ tour -> is_Some (coordinates !! v)) ->
  exists pts, located coordinates tour pts /\
              calculate_tour_distance tour coordinates = Ok (tourLength pts).
Proof.
  intros H. destruct (located_exists _ _ H) as [pts Hpts].
  exists pts. eauto using calculate_tour_distance_located.
Qed.

Lemma ordering_measured coordinates tour :
  tour ≡ₚ sorted_keys coordinates ->
  exists d, calculate_tour_distance tour coordinates = Ok d.
Proof.
  intros Hp. destruct (keys_measured coordinates tour) as (pts & _ & ?); eauto.
  intros v Hv. apply elem_of_sorted_keys. by rewrite <- Hp.
Qed.

Lemma candidates_measured coordinates start_vertex remaining_vertices :
  sorted_keys coordinates = start_vertex :: remaining_vertices ->
  Forall (fun perm => exists d,
            calculate_tour_distance (start_vertex :: perm) coordinates = Ok d)
         (itertools.permutations remaining_vertices).
Proof.
  intros Hk. apply Forall_forall. intros perm Hperm.
  apply elem_of_permutations in Hperm.
  apply ordering_measured. rewrite Hk. by constructor.
Qed.


Section search_facts.

Variable coordinates : gmap Z coord.
Variable cutoff_time : R.
Variable clock : nat -> R.

Local Abbreviation search := (brute_force_tsp coordinates cutoff_time clock).
Local Abbreviation evaluated :=
  (candidates_evaluated coordinates cutoff_time clock).

Lemma initial_incumbent : incumbent_of coordinates [] initial_state.
Proof. by split. Qed.

(** With two or more vertices the search runs the loop over the orderings
    of the remaining vertices; the loop returns, and [finish] makes the
    result of its final state. *)
Lemma search_loop start_vertex v remaining :
  sorted_keys coordinates = start_vertex :: v :: remaining ->
  exists st,
    loop coordinates cutoff_time clock (clock 0%nat) start_vertex
         (itertools.permutations (v :: remaining)) initial_state = Ok st /\
    incumbent_of coordinates evaluated st /\
    0 <= checked st <= Z.of_nat (fact (length (v :: remaining))) /\
    search = finish coordinates start_vertex (v :: remaining) st.
Proof.
  intros Hk.
  destruct (loop_incumbent coordinates cutoff_time clock (clock 0%nat)
              start_vertex (itertools.permutations (v :: remaining))
              initial_state [])
    as (st & Hloop & Hinc & Hc).
  { by apply candidates_measured. }
  { apply initial_incumbent. }
  exists st. split; [done|].
  unfold candidates_evaluated, brute_force_tsp. rewrite Hk. cbv zeta.
  rewrite Hloop, bind_Ok. split; [done|]. split; [|done].
  rewrite permutations_length in Hc. simpl in Hc. simpl. lia.
Qed.

Lemma evaluated_prefix : evaluated `prefix_of` candidates coordinates.
Proof.
  unfold candidates_evaluated, candidates.
  destruct (sorted_keys coordinates) as [|start_vertex [|v remaining]];
    [done..|].
  apply history_prefix.
Qed.

(** Every evaluated candidate is the anchor followed by an ordering of the
    remaining vertices. *)
Lemma elem_of_candidates tour :
  tour ∈ candidates coordinates ->
  exists start_vertex remaining_vertices perm,
    sorted_keys coordinates = start_vertex :: remaining_vertices /\
    tour = start_vertex :: perm /\ perm ≡ₚ remaining_vertices.
Proof.
  unfold candidates.
  destruct (sorted_keys coordinates) as [|start_vertex [|v remaining]];
    [by intros ?%elem_of_nil..|].
  intros (perm & -> & Hperm)%list_elem_of_fmap.
  apply elem_of_permutations in Hperm.
  by exists start_vertex, (v :: remaining), perm.
Qed.

Lemma elem_of_evaluated tour :
  tour ∈ evaluated -> tour ∈ candidates coordinates.
Proof.
  destruct evaluated_prefix as [k ->]. intros. apply elem_of_app. by left.
Qed.

(** The result of the search, on the path through the loop: the fallback
    tour if nothing was evaluated, else the first of the best evaluated
    candidates; with its distance in either case. *)
Lemma search_result start_vertex v remaining :
  sorted_keys coordinates = start_vertex :: v :: remaining ->
  exists tour d,
    search = Ok (tour, Finite d) /\
    calculate_tour_distance tour coordinates = Ok d /\
    ((evaluated = [] /\ tour = start_vertex :: v :: remaining) \/
     (exists i, first_best coordinates evaluated i tour d)).
Proof.
  intros Hk.
  destruct (search_loop _ _ _ Hk) as (st & _ & Hinc & _ & ->).
  unfold finish, incumbent_of in *.
  destruct (best_tour st) as [tour|].
  - destruct Hinc as (i & d & -> & Hfirst).
    exists tour, d. split; [done|]. split; [apply Hfirst|]. right. eauto.
  - destruct Hinc as [_ Hnil].
    destruct (ordering_measured coordinates (start_vertex :: v :: remaining))
      as [d Hd]; [by rewrite Hk|].
    exists (start_vertex :: v :: remaining), d.
    rewrite Hd, bind_Ok. auto.
Qed.

(** The result of the search on every path. *)
Lemma search_total :
  exists tour d,
    search = Ok (tour, Finite d) /\
    calculate_tour_distance tour coordinates = Ok d /\
    (tour = sorted_keys coordinates \/ tour ∈ candidates coordinates).
Proof.
  destruct (sorted_keys coordinates) as [|start_vertex [|v remaining]] eqn:Hk.
  - exists [], 0%R. unfold brute_force_tsp. rewrite Hk. auto.
  - exists [start_vertex], 0%R. unfold brute_force_tsp. rewrite Hk. auto.
  - destruct (search_result _ _ _ Hk)
      as (tour & d & Hs & Hd & [[_ ->]|[i (Hi & _)]]).
    + exists (start_vertex :: v :: remaining), d. auto.
    + exists tour, d. split; [done|]. split; [done|]. right.
      apply elem_of_evaluated. eauto using list_elem_of_lookup_2.
Qed.

End search_facts.

(** ** Budgets that never, or at once, expire *)

Lemma history_complete coordinates cutoff_time clock start_time start_vertex
    perms :
  Forall (fun perm => exists d,
            calculate_tour_distance (start_vertex :: perm) coordinates = Ok d)
         perms ->
  (forall i, expired cutoff_time clock start_time i = false) ->
  forall st hist, incumbent_of coordinates hist st ->
  history coordinates cutoff_time clock start_time start_vertex perms st
  = map (cons start_vertex) perms.
Proof.
  intros Hall Hnever. induction Hall as [|perm perms Hperm _ IH];
    intros st hist Hinc; [done|].
  cbn [history map].
  destruct (iteration_cases coordinates cutoff_time clock start_time
              start_vertex perm st hist Hperm Hinc)
    as [(_ & Hexp & _)|(st1 & -> & Hinc1 & _)].
  - by rewrite Hnever in Hexp.
  - f_equal. eauto.
Qed.

Lemma evaluated_all coordinates cutoff_time clock :
  (forall i, (clock i - clock 0%nat <= cutoff_time)%R) ->
  candidates_evaluated coordinates cutoff_time clock = candidates coordinates.
Proof.
  intros Hnever. unfold candidates_evaluated, candidates.
  destruct (sorted_keys coordinates) as [|start_vertex [|v remaining]] eqn:Hk;
    [done..|].
  eapply history_complete.
  - by apply candidates_measured.
  - intros i. apply Rltb_false, Hnever.
  - by split.
Qed.

Lemma evaluated_none coordinates cutoff_time clock :
  (cutoff_time < clock 1%nat - clock 0%nat)%R ->
  candidates_evaluated coordinates cutoff_time clock = [].
Proof.
  intros Hexp. unfold candidates_evaluated.
  destruct (sorted_keys coordinates) as [|start_vertex [|v remaining]];
    [done..|].
  pose proof (permutations_nonempty (v :: remaining)) as Hne.
  destruct (itertools.permutations (v :: remaining)) as [|perm perms];
    [done|].
  apply loop_break; [done|]. by apply Rltb_true.
Qed.



Lemma sorted_keys_two coordinates :
  (2 <= size coordinates)%nat ->
  exists start_vertex v remaining,
    sorted_keys coordinates = start_vertex :: v :: remaining.
Proof.
  rewrite <- sorted_keys_length.
  destruct (sorted_keys coordinates) as [|start_vertex [|v remaining]];
    simpl; [lia..|eauto].
Qed.

(** ** One iteration, whatever the candidate *)

Lemma evaluate_step coordinates start_vertex perm st st' :
  evaluate coordinates start_vertex perm st = Ok st' ->
  checked st' = checked st /\ ticks st' = ticks st /\
  ((best_tour st' = best_tour st /\ best_distance st' = best_distance st) \/
   (exists d,
      calculate_tour_distance (start_vertex :: perm) coordinates = Ok d /\
      xlt d (best_distance st) = true /\
      best_tour st' = Some (start_vertex :: perm) /\
      best_distance st' = Finite d)).
Proof.
  unfold evaluate. intros H. bind_inv H.
  destruct (xlt a (best_distance st)) eqn:Hlt; injection H as <-.
  - repeat split; try done. right. by exists a.
  - repeat split; try done. by left.
Qed.

Lemma iteration_step coordinates cutoff_time clock start_time start_vertex
    perm st o :
  iteration coordinates cutoff_time clock start_time start_vertex perm st
  = Ok o ->
  (best_tour (state_of o) = best_tour st /\
   best_distance (state_of o) = best_distance st) \/
  (exists d,
     calculate_tour_distance (start_vertex :: perm) coordinates = Ok d /\
     xlt d (best_distance st) = true /\
     best_tour (state_of o) = Some (start_vertex :: perm) /\
     best_distance (state_of o) = Finite d).
Proof.
  unfold iteration. cbn [best_tour best_distance checked ticks].
  destruct (time_check_due (checked st + 1));
    [destruct (expired cutoff_time clock start_time (ticks st))|];
    intros H; try (injection H as <-; by left);
    bind_inv H; injection H as <-;
    apply evaluate_step in Ha as (_ & _ & Hcase); exact Hcase.
Qed.


Lemma incumbent_of_bound coordinates hist st tour :
  incumbent_of coordinates hist st -> tour ∈ hist ->
  forall d, calculate_tour_distance tour coordinates = Ok d ->
  xle (best_distance st) (Finite d).
Proof.
  unfold incumbent_of. intros Hinc Hin d Hd.
  destruct (best_tour st) as [best|].
  - destruct Hinc as (i & b & -> & _ & _ & Hmin).
    apply list_elem_of_lookup in Hin as [j Hj].
    destruct (Hmin _ _ _ Hj Hd) as [Hle _]. exact Hle.
  - destruct Hinc as [_ ->]. by apply elem_of_nil in Hin.
Qed.

(** ** Running the search on the small instances *)

Lemma loop_step coordinates cutoff_time clock start_time start_vertex
    perm perms st d :
  time_check_due (checked st + 1)
  && expired cutoff_time clock start_time (ticks st) = false ->
  calculate_tour_distance (start_vertex :: perm) coordinates = Ok d ->
  loop coordinates cutoff_time clock start_time start_vertex (perm :: perms) st
  = loop coordinates cutoff_time clock start_time start_vertex perms
      (if xlt d (best_distance st)
       then LoopState (Some (start_vertex :: perm)) (Finite d)
                      (checked (entered st)) (ticks (entered st))
       else entered st).
Proof.
  intros Hcheck Hd. cbn [loop]. unfold iteration, entered.
  cbn [best_tour best_distance checked ticks].
  destruct (time_check_due (checked st + 1));
    [simpl in Hcheck; rewrite Hcheck|];
    rewrite (evaluate_eq _ _ _ _ _ Hd), !bind_Ok;
    cbn [best_tour best_distance checked ticks]; reflexivity.
Qed.

Lemma euclidean_distance_vertical x y1 y2 :
  euclidean_distance (x, y1) (x, y2) = Rabs (y2 - y1).
Proof.
  unfold euclidean_distance.
  replace ((x - x) ^ 2 + (y2 - y1) ^ 2)%R with (Rsqr (y2 - y1))
    by (unfold Rsqr; ring).
  apply sqrt_Rsqr_abs.
Qed.

(** Measures a concrete tour of cities on a vertical line. *)
Ltac measure :=
  erewrite calculate_tour_distance_located;
  [|unfold located; repeat (constructor; [reflexivity|]); once constructor];
  f_equal; unfold tourLength, closing_edge; cbn -[euclidean_distance];
  rewrite ?euclidean_distance_vertical;
  unfold Rabs; repeat destruct Rcase_abs; lra.

Ltac compare_reals :=
  repeat match goal with
         | |- context [Rltb ?a ?b] =>
             first
               [ replace (Rltb a b) with true
                   by (symmetry; apply Rltb_true; lra)
               | replace (Rltb a b) with false
                   by (symmetry; apply Rltb_false; lra) ]
         end.

(** One iteration of the loop on a concrete candidate of distance [d],
    whose time check, if due, finds the budget not exceeded. *)
Ltac iterate d :=
  rewrite (loop_step _ _ _ _ _ _ _ _ d);
  [ cbn [initial_state best_distance xlt entered checked ticks best_tour];
    compare_reals
  | first [ by vm_compute
          | apply andb_false_intro2, Rltb_false;
            unfold frozen_clock; lra ]
  | measure ].

Lemma sorted_keys_line3 : sorted_keys line3 = [1; 2; 3].
Proof. by vm_compute. Qed.

Lemma sorted_keys_line4 : sorted_keys line4 = [1; 2; 3; 4].
Proof. by vm_compute. Qed.


(** The second candidate replaces the first; the later ties do not replace
    it. *)
Example search_line4 :
  brute_force_tsp line4 1 frozen_clock = Ok ([1; 2; 4; 3], Finite 6).
Proof.
  unfold brute_force_tsp. rewrite sorted_keys_line4. cbv zeta.
  change (itertools.permutations [2; 3; 4])
    with [[2; 3; 4]; [2; 4; 3]; [3; 2; 4]; [3; 4; 2]; [4; 2; 3]; [4; 3; 2]].
  iterate 8%R. iterate 6%R. iterate 6%R. iterate 6%R. iterate 6%R.
  iterate 8%R. reflexivity.
Qed.

(** A zero budget and a clock that has advanced: the fallback tour. *)
Example search_line3_zero_budget :
  brute_force_tsp line3 0 ticking_clock = Ok ([1; 2; 3], Finite 4).
Proof.
  unfold brute_force_tsp. rewrite sorted_keys_line3. cbv zeta.
  change (itertools.permutations [2; 3]) with [[2; 3]; [3; 2]].
  destruct (loop_break line3 0 ticking_clock (ticking_clock 0) 1 [2; 3]
              [[3; 2]] initial_state) as [-> _].
  - reflexivity.
  - apply Rltb_true. unfold ticking_clock. simpl. lra.
  - rewrite bind_Ok. unfold finish. cbn [stopped initial_state best_tour].
    assert (calculate_tour_distance [1; 2; 3] line3 = Ok 4%R) as ->
      by measure.
    reflexivity.
Qed.

(** * The claims *)



(** C2. The returned tour is a permutation of exactly the keys of the map:
    every key once, nothing else, and as many vertices as the map has;
    this for every map (so for every non-empty one), budget and clock. *)
Theorem brute_force_tsp_permutation coordinates cutoff_time clock :
  exists tour d,
    brute_force_tsp coordinates cutoff_time clock = Ok (tour, d) /\
    tour ≡ₚ elements (dom coordinates) /\
    NoDup tour /\
    (forall v, v ∈ tour <-> is_Some (coordinates !! v)) /\
    length tour = size coordinates.
Proof.
  destruct (search_total coordinates cutoff_time clock)
    as (tour & d & Hs & _ & Hcase).
  exists tour, (Finite d). split; [done|].
  assert (tour ≡ₚ sorted_keys coordinates) as Hp.
  { destruct Hcase as [->|Hin]; [done|].
    apply elem_of_candidates in Hin as (s & r & perm & Hk' & -> & Hperm).
    by rewrite Hk', Hperm. }
  split; [by rewrite Hp, sorted_keys_Permutation|].
  split; [rewrite Hp; apply sorted_keys_NoDup|].
  split; [intros v; by rewrite Hp, elem_of_sorted_keys|].
  by rewrite Hp, sorted_keys_length.
Qed.

(** C3. The returned distance is the tour length of the returned tour, on
    every return path. *)
Theorem brute_force_tsp_distance coordinates cutoff_time clock :
  exists tour d,
    brute_force_tsp coordinates cutoff_time clock = Ok (tour, Finite d) /\
    calculate_tour_distance tour coordinates = Ok d.
Proof.
  destruct (search_total coordinates cutoff_time clock)
    as (tour & d & Hs & Hd & _). eauto.
Qed.


(** C5. On a tour whose vertices are all keys, [calculate_tour_distance]
    returns the sum of the distances between consecutive vertices plus the
    closing edge; on a tour of fewer than two vertices it returns [0.0]. *)
Theorem calculate_tour_distance_tourLength tour coordinates :
  (forall pts, located coordinates tour pts ->
     calculate_tour_distance tour coordinates = Ok (tourLength pts)) /\
  ((length tour < 2)%nat ->
     calculate_tour_distance tour coordinates = Ok 0%R).
Proof.
  split.
  - apply calculate_tour_distance_located.
  - intros Hlen. unfold calculate_tour_distance.
    apply Nat.ltb_lt in Hlen. by rewrite Hlen.
Qed.

(** C6. At every point of the enumeration (after any number [k] of
    iterations) the incumbent's distance is at most the distance of every
    candidate evaluated so far; an iteration changes the incumbent only to
    a strictly shorter candidate, and never removes it. *)
Theorem incumbent_monotonic coordinates cutoff_time clock start_vertex
    remaining_vertices :
  sorted_keys coordinates = start_vertex :: remaining_vertices ->
  (forall k,
     let perms := take k (itertools.permutations remaining_vertices) in
     exists st,
       loop coordinates cutoff_time clock (clock 0%nat) start_vertex perms
            initial_state = Ok st /\
       forall tour,
         tour ∈ history coordinates cutoff_time clock (clock 0%nat)
                        start_vertex perms initial_state ->
         exists d, calculate_tour_distance tour coordinates = Ok d /\
                   xle (best_distance st) (Finite d)) /\
  (forall perm st o,
     iteration coordinates cutoff_time clock (clock 0%nat) start_vertex perm st
     = Ok o ->
     ((best_tour (state_of o) = best_tour st /\
       best_distance (state_of o) = best_distance st) \/
      (exists d,
         calculate_tour_distance (start_vertex :: perm) coordinates = Ok d /\
         xlt d (best_distance st) = true /\
         best_tour (state_of o) = Some (start_vertex :: perm) /\
         best_distance (state_of o) = Finite d)) /\
     (is_Some (best_tour st) -> is_Some (best_tour (state_of o)))).
Proof.
  intros Hk. split.
  - intros k perms.
    assert (Forall (fun perm => exists d,
              calculate_tour_distance (start_vertex :: perm) coordinates
              = Ok d) perms) as Hall.
    { apply Forall_take. by apply candidates_measured. }
    destruct (loop_incumbent coordinates cutoff_time clock (clock 0%nat)
                start_vertex perms initial_state [] Hall)
      as (st & Hloop & Hinc & _); [by split|].
    exists st. split; [done|]. intros tour Hin.
    assert (exists d, calculate_tour_distance tour coordinates = Ok d)
      as [d Hd].
    { destruct (history_prefix coordinates cutoff_time clock (clock 0%nat)
                  start_vertex perms initial_state) as [rest Hrest].
      assert (tour ∈ map (cons start_vertex) perms) as Hin'
        by (rewrite Hrest; apply elem_of_app; by left).
      apply list_elem_of_fmap in Hin' as (perm & -> & Hperm).
      by eapply Forall_forall in Hall. }
    exists d. split; [done|]. eapply incumbent_of_bound; eauto.
  - intros perm st o Hit.
    pose proof (iteration_step _ _ _ _ _ _ _ _ Hit) as Hstep.
    split; [done|]. intros Hsome.
    destruct Hstep as [[-> _]|(d & _ & _ & -> & _)]; [done|eauto].
Qed.

(** C7. A candidate whose distance equals the incumbent's does not replace
    it, and the tour returned is the first, in enumeration order, of the
    evaluated candidates of least distance: none is shorter and every
    earlier one is strictly longer. *)
Theorem first_found_wins coordinates cutoff_time clock :
  candidates_evaluated coordinates cutoff_time clock <> [] ->
  (exists tour d i,
     brute_force_tsp coordinates cutoff_time clock = Ok (tour, Finite d) /\
     candidates_evaluated coordinates cutoff_time clock !! i = Some tour /\
     calculate_tour_distance tour coordinates = Ok d /\
     forall j tour' d',
       candidates_evaluated coordinates cutoff_time clock !! j = Some tour' ->
       calculate_tour_distance tour' coordinates = Ok d' ->
       (d <= d')%R /\ ((j < i)%nat -> (d < d')%R)) /\
  (forall start_vertex perm st d,
     calculate_tour_distance (start_vertex :: perm) coordinates = Ok d ->
     best_distance st = Finite d ->
     evaluate coordinates start_vertex perm st = Ok st).
Proof.
  intros Hne. split.
  - destruct (sorted_keys coordinates) as [|start_vertex [|v remaining]] eqn:Hk;
      try (unfold candidates_evaluated in Hne; by rewrite Hk in Hne).
    destruct (search_result coordinates cutoff_time clock _ _ _ Hk)
      as (tour & d & Hs & Hd & [[Hnil _]|[i Hfirst]]); [done|].
    exists tour, d, i. split; [done|]. exact Hfirst.
  - intros start_vertex perm st d Hd Hbest.
    rewrite (evaluate_eq _ _ _ _ _ Hd), Hbest. simpl.
    by replace (Rltb d d) with false by (symmetry; apply Rltb_false; lra).
Qed.




(** C10. With two or more vertices the returned tour begins with the
    smallest vertex ID of the map. *)
Theorem brute_force_tsp_anchor coordinates cutoff_time clock :
  (2 <= size coordinates)%nat ->
  exists start_vertex rest d,
    brute_force_tsp coordinates cutoff_time clock
    = Ok (start_vertex :: rest, d) /\
    is_Some (coordinates !! start_vertex) /\
    forall v, is_Some (coordinates !! v) -> start_vertex <= v.
Proof.
  intros Hsize.
  destruct (sorted_keys_two _ Hsize) as (start_vertex & v & remaining & Hk).
  destruct (search_total coordinates cutoff_time clock)
    as (tour & d & Hs & _ & Hcase).
  assert (exists rest, tour = start_vertex :: rest) as [rest ->].
  { destruct Hcase as [->|Hin]; [rewrite Hk; eauto|].
    apply elem_of_candidates in Hin as (s & r & perm & Hk' & -> & _).
    rewrite Hk in Hk'. injection Hk' as <- _. eauto. }
  exists start_vertex, rest, (Finite d). split; [done|]. split.
  - apply elem_of_sorted_keys. rewrite Hk. left.
  - intros u Hu. by eapply sorted_keys_head_least.
Qed.

(** * The claims on the small instances *)

Lemma size_line3 : (2 <= size line3)%nat.
Proof. vm_compute. lia. Qed.


Lemma frozen_clock_never_expires i :
  (frozen_clock i - frozen_clock 0%nat <= 1)%R.
Proof. unfold frozen_clock. lra. Qed.

Lemma ticking_clock_expired : (0 < ticking_clock 1%nat - ticking_clock 0%nat)%R.
Proof. unfold ticking_clock. simpl. lra. Qed.

Lemma located_line3 :
  located line3 [1; 2; 3] [(0, 0); (0, 1); (0, 2)]%R.
Proof. unfold located. repeat (constructor; [reflexivity|]). constructor. Qed.



Lemma calculate_tour_distance_tourLength_witness :
  located line3 [1; 2; 3] [(0, 0); (0, 1); (0, 2)]%R /\
  calculate_tour_distance [1; 2; 3] line3
  = Ok (tourLength [(0, 0); (0, 1); (0, 2)]%R) /\
  calculate_tour_distance [99] line3 = Ok 0%R.
Proof.
  split; [exact located_line3|]. split.
  - exact (proj1 (calculate_tour_distance_tourLength [1; 2; 3] line3)
             _ located_line3).
  - apply (proj2 (calculate_tour_distance_tourLength [99] line3)).
    simpl. lia.
Defined.

Lemma incumbent_monotonic_witness :
  sorted_keys line3 = [1; 2; 3] /\
  exists st,
    loop line3 1 frozen_clock (frozen_clock 0%nat) 1
         (take 2 (itertools.permutations [2; 3])) initial_state = Ok st /\
    forall tour,
      tour ∈ history line3 1 frozen_clock (frozen_clock 0%nat) 1
                     (take 2 (itertools.permutations [2; 3])) initial_state ->
      exists d, calculate_tour_distance tour line3 = Ok d /\
                xle (best_distance st) (Finite d).
Proof.
  split; [exact sorted_keys_line3|].
  exact (proj1 (incumbent_monotonic line3 1 frozen_clock 1 [2; 3]
                  sorted_keys_line3) 2%nat).
Defined.

Lemma evaluated_line3 : candidates_evaluated line3 1 frozen_clock <> [].
Proof.
  rewrite (evaluated_all line3 1 frozen_clock frozen_clock_never_expires).
  by vm_compute.
Qed.

Lemma first_found_wins_witness :
  candidates_evaluated line3 1 frozen_clock <> [] /\
  exists tour d i,
    brute_force_tsp line3 1 frozen_clock = Ok (tour, Finite d) /\
    candidates_evaluated line3 1 frozen_clock !! i = Some tour /\
    calculate_tour_distance tour line3 = Ok d /\
    forall j tour' d',
      candidates_evaluated line3 1 frozen_clock !! j = Some tour' ->
      calculate_tour_distance tour' line3 = Ok d' ->
      (d <= d')%R /\ ((j < i)%nat -> (d < d')%R).
Proof.
  split; [exact evaluated_line3|].
  exact (proj1 (first_found_wins line3 1 frozen_clock evaluated_line3)).
Defined.


Lemma brute_force_tsp_anchor_witness :
  (2 <= size line3)%nat /\
  exists start_vertex rest d,
    brute_force_tsp line3 1 frozen_clock = Ok (start_vertex :: rest, d) /\
    is_Some (line3 !! start_vertex) /\
    forall v, is_Some (line3 !! v) -> start_vertex <= v.
Proof.
  split; [exact size_line3|].
  exact (brute_force_tsp_anchor line3 1 frozen_clock size_line3).
Defined.

(** * Further properties of the distance metric *)






(** * Further properties of [calculate_tour_distance] *)

Lemma calculate_tour_distance_short tour coordinates :
  (length tour < 2)%nat -> calculate_tour_distance tour coordinates = Ok 0%R.
Proof.
  intros Hlen. unfold calculate_tour_distance.
  apply Nat.ltb_lt in Hlen. by rewrite Hlen.
Qed.

(** A measured tour has its points in the map, or is too short to need
    them. *)
Lemma calculate_tour_distance_Ok_inv tour coordinates d :
  calculate_tour_distance tour coordinates = Ok d ->
  ((length tour < 2)%nat /\ d = 0%R) \/
  ((2 <= length tour)%nat /\
   exists pts, located coordinates tour pts /\ d = tourLength pts).
Proof.
  intros Hd. destruct (decide (length tour < 2)%nat) as [Hlt|Hge].
  - left. rewrite calculate_tour_distance_short in Hd by done.
    split; [done|congruence].
  - right. split; [lia|].
    destruct (keys_measured coordinates tour) as (pts & Hloc & Hcalc).
    { eapply calculate_tour_distance_Ok_keys; [lia|done]. }
    exists pts. split; [done|congruence].
Qed.

(** X2. A tour length is never negative. *)
Theorem calculate_tour_distance_nonneg tour coordinates d :
  calculate_tour_distance tour coordinates = Ok d -> (0 <= d)%R.
Proof.
  intros [[_ ->]|(_ & pts & _ & ->)]%calculate_tour_distance_Ok_inv;
    [lra|apply tourLength_nonneg].
Qed.











(** ** Maps that place the cities of a tour alike *)

Lemma for_range_ext range body1 body2 :
  (forall i acc, i ∈ range -> body1 i acc = body2 i acc) ->
  forall acc, for_range range body1 acc = for_range range body2 acc.
Proof.
  induction range as [|i range IH]; intros Hext acc; [done|].
  cbn [for_range]. rewrite Hext by left.
  destruct (body2 i acc) as [acc'|e]; [|done].
  rewrite !bind_Ok. apply IH. intros; apply Hext; by right.
Qed.

Section isometry.

Variable f : coord -> coord.
Hypothesis f_isometry :
  forall a b, euclidean_distance (f a) (f b) = euclidean_distance a b.

Variables coordinates1 coordinates2 : gmap Z coord.
Variable tour : list Z.
Hypothesis moved :
  forall v, v ∈ tour -> coordinates2 !! v = f <$> coordinates1 !! v.

Lemma getitem_moved v :
  v ∈ tour ->
  getitem coordinates2 v
  = match getitem coordinates1 v with
    | Ok c => Ok (f c)
    | Raise e => Raise e
    end.
Proof.
  intros Hv. unfold getitem. rewrite (moved v Hv).
  by destruct (coordinates1 !! v).
Qed.

Lemma add_edge_moved i acc :
  add_edge tour coordinates2 i acc = add_edge tour coordinates1 i acc.
Proof.
  unfold add_edge, index.
  destruct (tour !! i) as [a|] eqn:Ha; [|done].
  assert (a ∈ tour) as Hin by eauto using list_elem_of_lookup_2.
  destruct (tour !! (i + 1)%nat) as [b|] eqn:Hb; cbn [mbind result_bind].
  - assert (b ∈ tour) as Hin' by eauto using list_elem_of_lookup_2.
    rewrite (getitem_moved a Hin), (getitem_moved b Hin').
    destruct (getitem coordinates1 a) as [ca|e]; [|done].
    destruct (getitem coordinates1 b) as [cb|e]; [|done].
    cbn [mbind result_bind]. by rewrite f_isometry.
  - rewrite (getitem_moved a Hin).
    by destruct (getitem coordinates1 a).
Qed.

Lemma calculate_tour_distance_moved :
  calculate_tour_distance tour coordinates2
  = calculate_tour_distance tour coordinates1.
Proof.
  unfold calculate_tour_distance.
  destruct (length tour <? 2)%nat eqn:Hlen; [done|].
  apply Nat.ltb_ge in Hlen. cbv zeta.
  rewrite (for_range_ext _ (add_edge tour coordinates2)
             (add_edge tour coordinates1))
    by (intros; apply add_edge_moved).
  destruct (for_range _ _ _) as [total|e]; [|done].
  unfold index_last, index.
  destruct (lookup_lt_is_Some_2 tour (length tour - 1)) as [l Hl]; [lia|].
  destruct (lookup_lt_is_Some_2 tour 0) as [h Hh]; [lia|].
  rewrite Hl, Hh. cbn [mbind result_bind].
  rewrite (getitem_moved l), (getitem_moved h)
    by eauto using list_elem_of_lookup_2.
  destruct (getitem coordinates1 l) as [cl|e]; [|done].
  destruct (getitem coordinates1 h) as [ch|e]; [|done].
  cbn [mbind result_bind]. by rewrite f_isometry.
Qed.

End isometry.

(** X6. The length of a tour depends only on where the map puts the
    vertices of that tour: two maps that agree on them give the same
    result, the exception included. *)
Theorem calculate_tour_distance_agree tour coordinates1 coordinates2 :
  (forall v, v ∈ tour -> coordinates1 !! v = coordinates2 !! v) ->
  calculate_tour_distance tour coordinates1
  = calculate_tour_distance tour coordinates2.
Proof.
  intros Hagree. symmetry.
  apply (calculate_tour_distance_moved (fun c => c)); [done|].
  intros v Hv. rewrite <- (Hagree v Hv). by destruct (coordinates1 !! v).
Qed.

(** * Further properties of the search *)

Section search_moved.

Variables coordinates1 coordinates2 : gmap Z coord.
Hypothesis same_lengths :
  forall tour, calculate_tour_distance tour coordinates2
               = calculate_tour_distance tour coordinates1.
Variable cutoff_time : R.
Variable clock : nat -> R.
Variable start_time : R.
Variable start_vertex : Z.





End search_moved.


(** X8. The degenerate instances: the empty map gives the empty tour and
    a one-city map gives that city, both of length [0.0], for every budget
    and clock. *)
Theorem brute_force_tsp_degenerate cutoff_time clock :
  brute_force_tsp ∅ cutoff_time clock = Ok ([], Finite 0) /\
  forall v c,
    brute_force_tsp {[v := c]} cutoff_time clock = Ok ([v], Finite 0).
Proof.
  split.
  - unfold brute_force_tsp.
    by replace (sorted_keys ∅) with (@nil Z) by (symmetry; by apply sorted_keys_nil).
  - intros v c. unfold brute_force_tsp.
    assert (sorted_keys {[v := c]} = [v]) as ->; [|done].
    apply Permutation_singleton_r.
    by rewrite sorted_keys_Permutation, dom_singleton_L, elements_singleton.
Qed.

Lemma first_best_unique coordinates hist i1 tour1 d1 i2 tour2 d2 :
  first_best coordinates hist i1 tour1 d1 ->
  first_best coordinates hist i2 tour2 d2 ->
  tour1 = tour2 /\ d1 = d2.
Proof.
  intros (Hi1 & Hd1 & Hmin1) (Hi2 & Hd2 & Hmin2).
  destruct (Hmin1 _ _ _ Hi2 Hd2) as [Hle1 Hlt1].
  destruct (Hmin2 _ _ _ Hi1 Hd1) as [Hle2 Hlt2].
  assert (i1 = i2) as ->.
  { destruct (Nat.lt_trichotomy i1 i2) as [Hlt|[->|Hlt]]; [|done|].
    - specialize (Hlt2 Hlt). lra.
    - specialize (Hlt1 Hlt). lra. }
  split; congruence.
Qed.

(** X9. Budget and clock matter only through which candidates get
    evaluated: two runs on the same map that evaluate the same candidates
    return the same pair. *)
Theorem brute_force_tsp_determined coordinates cutoff_time1 clock1
    cutoff_time2 clock2 :
  candidates_evaluated coordinates cutoff_time1 clock1
  = candidates_evaluated coordinates cutoff_time2 clock2 ->
  brute_force_tsp coordinates cutoff_time1 clock1
  = brute_force_tsp coordinates cutoff_time2 clock2.
Proof.
  intros Hsame.
  destruct (sorted_keys coordinates) as [|start_vertex [|v remaining]] eqn:Hk.
  - unfold brute_force_tsp. by rewrite Hk.
  - unfold brute_force_tsp. by rewrite Hk.
  - destruct (search_result coordinates cutoff_time1 clock1 _ _ _ Hk)
      as (tour1 & d1 & -> & Hd1 & Hcase1).
    destruct (search_result coordinates cutoff_time2 clock2 _ _ _ Hk)
      as (tour2 & d2 & -> & Hd2 & Hcase2).
    rewrite <- Hsame in Hcase2.
    destruct Hcase1 as [[Hnil1 ->]|[i1 Hfirst1]],
             Hcase2 as [[Hnil2 ->]|[i2 Hfirst2]].
    + do 3 f_equal. congruence.
    + destruct Hfirst2 as (Hi2 & _). by rewrite Hnil1 in Hi2.
    + destruct Hfirst1 as (Hi1 & _). by rewrite Hnil2 in Hi1.
    + by destruct (first_best_unique _ _ _ _ _ _ _ _ Hfirst1 Hfirst2)
        as [-> ->].
Qed.

(** The enumeration starts with the pool in its own order. *)
Lemma permutations_of_length_head {A} r :
  forall pool : list A, length pool = r ->
  head (itertools.permutations_of_length r pool) = Some pool.
Proof.
  induction r as [|r IH]; intros pool Hlen.
  - by apply nil_length_inv in Hlen as ->.
  - destruct pool as [|x pool]; [discriminate|].
    injection Hlen as Hlen. specialize (IH pool Hlen).
    cbn [itertools.permutations_of_length itertools.selections flat_map fst snd].
    destruct (itertools.permutations_of_length r pool) as [|p ps];
      [discriminate|].
    injection IH as ->. reflexivity.
Qed.

Lemma candidates_head coordinates start_vertex v remaining :
  sorted_keys coordinates = start_vertex :: v :: remaining ->
  candidates coordinates !! 0%nat = Some (start_vertex :: v :: remaining).
Proof.
  intros Hk. unfold candidates. rewrite Hk.
  pose proof (permutations_of_length_head _ (v :: remaining) eq_refl) as Hh.
  unfold itertools.permutations.
  destruct (itertools.permutations_of_length _ _) as [|p ps];
    [discriminate|].
  injection Hh as ->. reflexivity.
Qed.

Lemma evaluated_head coordinates cutoff_time clock start_vertex v remaining :
  sorted_keys coordinates = start_vertex :: v :: remaining ->
  candidates_evaluated coordinates cutoff_time clock <> [] ->
  candidates_evaluated coordinates cutoff_time clock !! 0%nat
  = Some (start_vertex :: v :: remaining).
Proof.
  intros Hk Hne.
  pose proof (candidates_head _ _ _ _ Hk) as Hh.
  destruct (evaluated_prefix coordinates cutoff_time clock) as [rest Hrest].
  rewrite Hrest in Hh.
  destruct (candidates_evaluated coordinates cutoff_time clock); [done|].
  exact Hh.
Qed.

(** X10. The search is an anytime algorithm: a run that evaluates more
    candidates (a longer initial part of the enumeration) never returns a
    longer tour. *)
Theorem brute_force_tsp_anytime coordinates cutoff_time1 clock1 cutoff_time2
    clock2 :
  candidates_evaluated coordinates cutoff_time1 clock1
  `prefix_of` candidates_evaluated coordinates cutoff_time2 clock2 ->
  exists tour1 d1 tour2 d2,
    brute_force_tsp coordinates cutoff_time1 clock1 = Ok (tour1, Finite d1) /\
    brute_force_tsp coordinates cutoff_time2 clock2 = Ok (tour2, Finite d2) /\
    (d2 <= d1)%R.
Proof.
  intros Hpre.
  destruct (sorted_keys coordinates) as [|start_vertex [|v remaining]] eqn:Hk.
  - exists [], 0%R, [], 0%R. unfold brute_force_tsp. rewrite Hk.
    repeat split; lra.
  - exists [start_vertex], 0%R, [start_vertex], 0%R.
    unfold brute_force_tsp. rewrite Hk. repeat split; lra.
  - destruct (search_result coordinates cutoff_time1 clock1 _ _ _ Hk)
      as (tour1 & d1 & Hs1 & Hd1 & Hcase1).
    destruct (search_result coordinates cutoff_time2 clock2 _ _ _ Hk)
      as (tour2 & d2 & Hs2 & Hd2 & Hcase2).
    exists tour1, d1, tour2, d2. split; [done|]. split; [done|].
    destruct Hcase2 as [[Hnil2 ->]|[i2 (Hi2 & _ & Hmin2)]].
    + rewrite Hnil2 in Hpre. apply prefix_nil_inv in Hpre.
      destruct Hcase1 as [[_ ->]|[i1 (Hi1 & _)]];
        [|by rewrite Hpre in Hi1].
      assert (d1 = d2) by congruence. lra.
    + destruct Hcase1 as [[_ ->]|[i1 (Hi1 & _)]].
      * assert (candidates_evaluated coordinates cutoff_time2 clock2 <> [])
          as Hne by (intros Hnil; by rewrite Hnil in Hi2).
        pose proof (evaluated_head _ _ _ _ _ _ Hk Hne) as Hh.
        by destruct (Hmin2 _ _ _ Hh Hd1).
      * eapply Hmin2; [|done]. by eapply prefix_lookup_Some.
Qed.

(** X11. Whatever the budget, the search does not return a tour longer
    than the keys in ascending order, the tour it falls back on. *)
Theorem brute_force_tsp_no_worse_than_fallback coordinates cutoff_time clock :
  exists tour d d0,
    brute_force_tsp coordinates cutoff_time clock = Ok (tour, Finite d) /\
    calculate_tour_distance (sorted_keys coordinates) coordinates = Ok d0 /\
    (d <= d0)%R.
Proof.
  destruct (sorted_keys coordinates) as [|start_vertex [|v remaining]] eqn:Hk.
  - exists [], 0%R, 0%R. unfold brute_force_tsp. rewrite Hk.
    repeat split; lra.
  - exists [start_vertex], 0%R, 0%R. unfold brute_force_tsp. rewrite Hk.
    repeat split; lra.
  - destruct (search_result coordinates cutoff_time clock _ _ _ Hk)
      as (tour & d & Hs & Hd & Hcase).
    destruct Hcase as [[_ ->]|[i (Hi & _ & Hmin)]].
    + exists (start_vertex :: v :: remaining), d, d.
      repeat split; [done..|lra].
    + destruct (ordering_measured coordinates (start_vertex :: v :: remaining))
        as [d0 Hd0]; [by rewrite Hk|].
      exists tour, d, d0. split; [done|]. split; [done|].
      assert (candidates_evaluated coordinates cutoff_time clock <> [])
        as Hne by (intros Hnil; by rewrite Hnil in Hi).
      pose proof (evaluated_head _ _ _ _ _ _ Hk Hne) as Hh.
      by destruct (Hmin _ _ _ Hh Hd0).
Qed.


(** ** The time checks *)

Lemma iteration_counters coordinates cutoff_time clock start_time start_vertex
    perm st o :
  iteration coordinates cutoff_time clock start_time start_vertex perm st
  = Ok o ->
  checked (state_of o) = checked st + 1 /\
  ticks (state_of o)
  = (if time_check_due (checked st + 1) then S (ticks st) else ticks st).
Proof.
  unfold iteration. cbn [best_tour best_distance checked ticks].
  destruct (time_check_due (checked st + 1));
    [destruct (expired cutoff_time clock start_time (ticks st))|];
    intros H; try (by injection H as <-);
    bind_inv H; injection H as <-; cbn [state_of];
    apply evaluate_step in Ha as (Hc & Ht & _);
    cbn [checked ticks] in Hc, Ht; by rewrite Hc, Ht.
Qed.

Lemma time_check_due_spec c :
  0 <= c ->
  time_check_due (c + 1) = true <-> c = 0 \/ (c + 1) mod 10000 = 0.
Proof.
  intros Hc. unfold time_check_due, check_interval.
  rewrite orb_true_iff, !Z.eqb_eq. lia.
Qed.

Lemma loop_counters coordinates cutoff_time clock start_time start_vertex
    perms :
  forall st st',
  loop coordinates cutoff_time clock start_time start_vertex perms st
  = Ok st' ->
  0 <= checked st ->
  Z.of_nat (ticks st) = 1 + Z.min 1 (checked st) + checked st / 10000 ->
  checked st <= checked st' /\
  (perms <> [] -> checked st < checked st') /\
  Z.of_nat (ticks st') = 1 + Z.min 1 (checked st') + checked st' / 10000.
Proof.
  induction perms as [|perm perms IH]; intros st st' Hloop Hc Ht.
  - injection Hloop as <-. split; [lia|]. split; [done|exact Ht].
  - cbn [loop] in Hloop. bind_inv Hloop.
    destruct (iteration_counters _ _ _ _ _ _ _ _ Ha) as [Hc1 Ht1].
    assert (Z.of_nat (ticks (state_of a))
            = 1 + Z.min 1 (checked (state_of a))
              + checked (state_of a) / 10000) as Hinv.
    { rewrite Hc1, Ht1.
      destruct (time_check_due (checked st + 1)) eqn:Hdue.
      - apply time_check_due_spec in Hdue; [|done].
        destruct Hdue as [H0|Hm].
        + rewrite H0 in *. change ((0 + 1) / 10000) with 0.
          change (0 / 10000) with 0 in Ht. lia.
        + rewrite Nat2Z.inj_succ, Ht.
          pose proof (Z.div_mod (checked st + 1) 10000).
          pose proof (Z.div_mod (checked st) 10000).
          pose proof (Z.mod_pos_bound (checked st) 10000).
          lia.
      - assert (~ (checked st = 0 \/ (checked st + 1) mod 10000 = 0)) as Hnd.
        { intros H%time_check_due_spec; [congruence|done]. }
        rewrite Ht.
        pose proof (Z.div_mod (checked st + 1) 10000).
        pose proof (Z.div_mod (checked st) 10000).
        pose proof (Z.mod_pos_bound (checked st) 10000).
        pose proof (Z.mod_pos_bound (checked st + 1) 10000).
        lia. }
    destruct a as [st1|st1]; cbn [state_of] in *.
    + destruct (IH _ _ Hloop) as (Hle & _ & Hinv'); [lia|done|].
      split; [lia|]. split; [intros _; lia|done].
    + injection Hloop as <-. split; [lia|]. split; [intros _; lia|done].
Qed.

(** X12. The clock is read sparingly: once before the loop, once at the
    first candidate and once at every 10000th, so when the loop has counted
    [checked] candidates, [time.time()] has been called
    [2 + checked // 10000] times. *)
Theorem brute_force_tsp_clock_reads coordinates cutoff_time clock start_vertex
    v remaining :
  sorted_keys coordinates = start_vertex :: v :: remaining ->
  exists st,
    loop coordinates cutoff_time clock (clock 0%nat) start_vertex
         (itertools.permutations (v :: remaining)) initial_state = Ok st /\
    1 <= checked st /\
    Z.of_nat (ticks st) = 2 + checked st / check_interval.
Proof.
  intros Hk.
  destruct (search_loop coordinates cutoff_time clock _ _ _ Hk)
    as (st & Hloop & _).
  exists st. split; [done|].
  destruct (loop_counters _ _ _ _ _ _ _ _ Hloop) as (_ & Hlt & Hinv);
    [done|done|].
  specialize (Hlt (permutations_nonempty _)).
  change (checked initial_state) with 0 in Hlt.
  split; [lia|]. unfold check_interval. lia.
Qed.

(** X13. The overrun is bounded: from a moment on when every reading of
    the clock finds the budget exceeded, the loop evaluates fewer than
    [check_interval] further candidates, whatever remains to enumerate. *)
Theorem history_overrun coordinates cutoff_time clock start_time start_vertex
    (t : nat) perms st :
  (forall i, (t <= i)%nat ->
             expired cutoff_time clock start_time i = true) ->
  (t <= ticks st)%nat ->
  (Z.of_nat (length (history coordinates cutoff_time clock start_time
                             start_vertex perms st))
   < check_interval).
Proof.
  intros Hexp Ht. unfold check_interval.
  enough (Z.of_nat (length (history coordinates cutoff_time clock start_time
                                    start_vertex perms st))
          <= 9999 - checked st mod 10000) as Hgoal.
  { pose proof (Z.mod_pos_bound (checked st) 10000). lia. }
  revert st Ht. induction perms as [|perm perms IH]; intros st Ht.
  - simpl. pose proof (Z.mod_pos_bound (checked st) 10000). lia.
  - pose proof (Z.mod_pos_bound (checked st) 10000) as Hb.
    cbn [history].
    destruct (iteration coordinates cutoff_time clock start_time start_vertex
                        perm st) as [[st1|st1]|e] eqn:Hit;
      [|simpl; lia..].
    destruct (iteration_counters _ _ _ _ _ _ _ _ Hit) as [Hc1 Ht1].
    cbn [state_of] in Hc1, Ht1.
    assert (time_check_due (checked st + 1) = false) as Hnd.
    { destruct (time_check_due (checked st + 1)) eqn:Hdue; [|done].
      unfold iteration in Hit.
      cbn [best_tour best_distance checked ticks] in Hit.
      rewrite Hdue, (Hexp _ Ht) in Hit. discriminate. }
    rewrite Hnd in Ht1.
    assert ((checked st + 1) mod 10000 <> 0) as Hm.
    { unfold time_check_due, check_interval in Hnd.
      apply orb_false_iff in Hnd as [_ Hnd]. by apply Z.eqb_neq in Hnd. }
    specialize (IH st1). rewrite Ht1, Hc1 in IH. specialize (IH Ht).
    rewrite length_cons, Nat2Z.inj_succ.
    pose proof (Z.div_mod (checked st + 1) 10000).
    pose proof (Z.div_mod (checked st) 10000).
    pose proof (Z.mod_pos_bound (checked st + 1) 10000).
    lia.
Qed.

(** ** No ordering is enumerated twice *)

Lemma selections_fst {A} (pool : list A) :
  map fst (itertools.selections pool) = pool.
Proof.
  induction pool as [|x pool IH]; [done|].
  cbn [itertools.selections map fst]. f_equal.
  rewrite <- IH at 2. rewrite map_map. by apply map_ext.
Qed.

Lemma NoDup_flat_map_cons {A} (g : A * list A -> list (list A))
    (l : list (A * list A)) :
  NoDup (map fst l) ->
  (forall s, s ∈ l -> NoDup (g s)) ->
  NoDup (flat_map (fun s => map (cons s.1) (g s)) l).
Proof.
  induction l as [|s l IH]; intros Hfst Hg; [constructor|].
  cbn [map flat_map] in *. apply NoDup_cons in Hfst as [Hs Hfst].
  apply NoDup_app. split; [|split].
  - apply (NoDup_fmap_2 _). apply Hg. left.
  - intros p Hp Hp'.
    apply list_elem_of_fmap in Hp as (q & -> & _).
    apply elem_of_flat_map in Hp' as (s' & Hs' & Hq).
    apply list_elem_of_fmap in Hq as (q' & Heq & _).
    injection Heq as Heq _. apply Hs. rewrite Heq.
    apply list_elem_of_fmap. by exists s'.
  - apply IH; [done|]. intros; apply Hg; by right.
Qed.

Lemma permutations_of_length_NoDup {A} r :
  forall pool : list A, length pool = r -> NoDup pool ->
  NoDup (itertools.permutations_of_length r pool).
Proof.
  induction r as [|r IH]; intros pool Hlen Hnd.
  - apply NoDup_singleton.
  - cbn [itertools.permutations_of_length].
    apply (NoDup_flat_map_cons
             (fun s => itertools.permutations_of_length r s.2)).
    + by rewrite selections_fst.
    + intros s Hs. pose proof (selections_sound _ _ Hs) as Hperm.
      apply IH.
      * apply Permutation_length in Hperm. simpl in Hperm. lia.
      * rewrite Hperm in Hnd. by apply NoDup_cons in Hnd as [_ ?].
Qed.

(** X14. The candidates are all different: no tour is generated, or
    evaluated, twice. *)
Theorem candidates_NoDup coordinates cutoff_time clock :
  NoDup (candidates coordinates) /\
  NoDup (candidates_evaluated coordinates cutoff_time clock).
Proof.
  assert (NoDup (candidates coordinates)) as Hnd.
  { unfold candidates.
    pose proof (sorted_keys_NoDup coordinates) as Hk.
    destruct (sorted_keys coordinates) as [|start_vertex [|v remaining]];
      [constructor..|].
    apply (NoDup_fmap_2 _).
    apply permutations_of_length_NoDup; [done|].
    by apply NoDup_cons in Hk as [_ ?]. }
  split; [done|].
  destruct (evaluated_prefix coordinates cutoff_time clock) as [rest Hrest].
  rewrite Hrest in Hnd. by apply NoDup_app in Hnd as [? _].
Qed.

(** * Properties of the loader *)

Section parser_facts.

Import tsp_parser.

Variable b : builtins.

Lemma outcome_bind_inv {A B} (f : A -> outcome B) (r : outcome A) (y : B) :
  (r ≫= f) = Return y -> exists a, r = Return a /\ f a = Return y.
Proof. destruct r as [a|e]; [eauto | discriminate]. Qed.

Ltac obind_inv H :=
  let a := fresh "a" in
  let Ha := fresh "Ha" in
  apply outcome_bind_inv in H as (a & Ha & H).

Lemma item_inv (parts : list string) i s :
  item parts i = Return s -> parts !! i = Some s.
Proof. unfold item. destruct (parts !! i); congruence. Qed.

Lemma convert_inv {A} (conversion : string -> option A) s a :
  convert conversion s = Return a -> conversion s = Some a.
Proof. unfold convert. destruct (conversion s); congruence. Qed.

(** What [store] leaves: the header variables and the flag as they were,
    and either the same cities, or one more, read off the three leading
    fields of a line of the coordinate section. *)
Lemma store_inv line st st' :
  store b line st = Return st' ->
  instance_name st' = instance_name st /\
  dimension st' = dimension st /\
  in_coord_section st' = in_coord_section st /\
  (coordinates st' = coordinates st \/
   in_coord_section st = true /\
   exists p0 p1 p2 rest v x y,
     split b line = p0 :: p1 :: p2 :: rest /\
     int b p0 = Some v /\ float b p1 = Some x /\ float b p2 = Some y /\
     coordinates st' = <[v := (x, y)]> (coordinates st)).
Proof.
  unfold store. intros H.
  destruct (in_coord_section st) eqn:Hin; [|injection H as <-; auto].
  destruct (3 <=? length (split b line))%nat eqn:Hlen;
    [|injection H as <-; rewrite Hin; auto].
  do 6 obind_inv H. injection H as <-. cbn [instance_name dimension
    in_coord_section coordinates].
  repeat split; try done. right. split; [done|].
  repeat match goal with
         | H : item _ _ = Return _ |- _ => apply item_inv in H
         | H : convert _ _ = Return _ |- _ => apply convert_inv in H
         end.
  destruct (split b line) as [|p0 [|p1 [|p2 rest]]]; try discriminate.
  cbn in *. simplify_eq. eauto 12.
Qed.

Lemma header_inv line st o :
  header b line st = Return o ->
  match o with
  | Some st1 =>
      coordinates st1 = coordinates st /\
      in_coord_section st1 = in_coord_section st
  | None => line = "NODE_COORD_SECTION"%string
  end.
Proof.
  unfold header. intros H.
  destruct (startswith b line "NAME:").
  { obind_inv H. by injection H as <-. }
  destruct (startswith b line "DIMENSION:").
  { do 2 obind_inv H. by injection H as <-. }
  case_bool_decide; injection H as <-; done.
Qed.

(** Every city the loop adds comes from a line it was given. *)
Lemma read_provenance lines :
  forall st st',
  read b lines st = Return st' ->
  forall v c, coordinates st' !! v = Some c ->
  coordinates st !! v = Some c \/
  exists line, line ∈ lines /\ city_line b line v c.
Proof.
  induction lines as [|line lines IH]; intros st st' H v c Hv.
  { injection H as <-. auto. }
  cbn [read] in H.
  destruct (terminator (strip b line)).
  { destruct (in_coord_section st).
    - injection H as <-. auto.
    - destruct (IH _ _ H v c Hv) as [?|(l & ? & ?)]; [auto|].
      right. exists l. split; [by right|done]. }
  obind_inv H. apply header_inv in Ha. destruct a as [st1|].
  - destruct Ha as [Hc1 _].
    apply outcome_bind_inv in H as (st2 & Hstore & H).
    apply store_inv in Hstore as (_ & _ & _ & Hstored).
    destruct (IH _ _ H v c Hv) as [Hold|(l & ? & ?)];
      [|right; exists l; split; [by right|done]].
    destruct Hstored as [Heq|(_ & p0 & p1 & p2 & rest & v' & x & y & Hsp
                                & Hi & Hx & Hy & Heq)].
    + left. congruence.
    + rewrite Heq, Hc1 in Hold.
      destruct (decide (v' = v)) as [->|Hne].
      * rewrite lookup_insert_eq in Hold. injection Hold as <-.
        right. exists line. split; [left|].
        by exists p0, p1, p2, rest.
      * rewrite lookup_insert_ne in Hold by done. by left.
  - destruct (IH _ _ H v c Hv) as [?|(l & ? & ?)]; [auto|].
    right. exists l. split; [by right|done].
Qed.

(** Without a line that opens the coordinate section nothing is stored. *)
Lemma read_no_section lines :
  Forall (fun line => ~ opens_section b line) lines ->
  forall st st',
  in_coord_section st = false ->
  read b lines st = Return st' ->
  coordinates st' = coordinates st.
Proof.
  induction 1 as [|line lines Hline _ IH]; intros st st' Hout H.
  { by injection H as <-. }
  cbn [read] in H. rewrite Hout in H.
  destruct (terminator (strip b line)); [eauto|].
  obind_inv H. apply header_inv in Ha. destruct a as [st1|]; [|done].
  destruct Ha as [Hc1 Hs1].
  apply outcome_bind_inv in H as (st2 & Hstore & H).
  apply store_inv in Hstore as (_ & _ & Hs2 & Hstored).
  rewrite Hs1, Hout in *.
  destruct Hstored as [Heq|[? _]]; [|done].
  rewrite <- Hc1, <- Heq. eapply IH; [|done]. congruence.
Qed.

(** Once in the coordinate section the loop ends at the first blank or
    [EOF] line. *)
Lemma read_stops pre :
  forall st st' line post,
  read b pre st = Return st' ->
  in_coord_section st' = true ->
  terminator (strip b line) = true ->
  read b (pre ++ line :: post) st = Return st'.
Proof.
  induction pre as [|l pre IH]; intros st st' line post H Hin Hterm.
  { injection H as <-. cbn [app read]. by rewrite Hterm, Hin. }
  cbn [app read] in *.
  destruct (terminator (strip b l)).
  { destruct (in_coord_section st); [done|]. by apply IH. }
  destruct (header b (strip b l) st) as [[st1|]|e]; cbn [mbind outcome_bind] in *;
    [|by apply IH|done].
  destruct (store b (strip b l) st1) as [st2|e]; cbn [mbind outcome_bind] in *;
    [by apply IH|done].
Qed.

End parser_facts.

Lemma parse_tsp_file_inv b lines name n coordinates :
  tsp_parser.parse_tsp_file b lines
  = tsp_parser.Return (name, n, coordinates) ->
  coordinates <> ∅ /\
  exists st,
    tsp_parser.read b lines tsp_parser.initial = tsp_parser.Return st /\
    tsp_parser.coordinates st = coordinates /\
    tsp_parser.instance_name st = Some name /\
    tsp_parser.dimension st = Some n.
Proof.
  unfold tsp_parser.parse_tsp_file. intros H.
  destruct (tsp_parser.read b lines tsp_parser.initial) as [st|e]; [|done].
  cbn [mbind tsp_parser.outcome_bind] in H.
  destruct (tsp_parser.instance_name st) as [name'|] eqn:Hname; [|done].
  destruct (tsp_parser.dimension st) as [n'|] eqn:Hdim; [|done].
  case_bool_decide; [done|]. injection H as <- <- <-.
  split; [done|]. by exists st.
Qed.

(** X15. A file without a [NODE_COORD_SECTION] line is never accepted:
    whatever else it holds, [parse_tsp_file] does not return. *)
Theorem parse_tsp_file_needs_section b lines :
  Forall (fun line => ~ tsp_parser.opens_section b line) lines ->
  forall r, tsp_parser.parse_tsp_file b lines <> tsp_parser.Return r.
Proof.
  intros Hno r H. unfold tsp_parser.parse_tsp_file in H.
  destruct (tsp_parser.read b lines tsp_parser.initial) as [st|e] eqn:Hread;
    [|done].
  apply (read_no_section b _ Hno) in Hread; [|done].
  cbn [mbind tsp_parser.outcome_bind] in H.
  destruct (tsp_parser.instance_name st), (tsp_parser.dimension st);
    try done.
  rewrite Hread in H. by rewrite bool_decide_eq_true_2 in H.
Qed.

(** X16. What [parse_tsp_file] returns is never an empty map, and each of
    its cities is read off the first three fields of some line of the
    file: the ID by [int], the coordinates by [float]. *)
Theorem parse_tsp_file_cities b lines name n coordinates :
  tsp_parser.parse_tsp_file b lines
  = tsp_parser.Return (name, n, coordinates) ->
  coordinates <> ∅ /\
  forall v c, coordinates !! v = Some c ->
    exists line, line ∈ lines /\ tsp_parser.city_line b line v c.
Proof.
  intros (Hne & st & Hread & <- & _)%parse_tsp_file_inv.
  split; [done|]. intros v c Hv.
  destruct (read_provenance b _ _ _ Hread v c Hv) as [Hinit|?]; [|done].
  cbn [tsp_parser.initial tsp_parser.coordinates] in Hinit.
  by rewrite lookup_empty in Hinit.
Qed.

(** X17. Whatever follows the blank or [EOF] line that ends the coordinate
    section is not read: the result is that of the lines before it. *)
Theorem parse_tsp_file_ignores_rest b pre line post st :
  tsp_parser.read b pre tsp_parser.initial = tsp_parser.Return st ->
  tsp_parser.in_coord_section st = true ->
  tsp_parser.terminator (tsp_parser.strip b line) = true ->
  tsp_parser.parse_tsp_file b (pre ++ line :: post)
  = tsp_parser.parse_tsp_file b pre.
Proof.
  intros Hread Hin Hterm. unfold tsp_parser.parse_tsp_file.
  by rewrite (read_stops b _ _ _ _ post Hread Hin Hterm), Hread.
Qed.

(** * Properties of [main] *)




(** * The further properties on the small instances *)

Lemma parse_line3_file :
  tsp_parser.parse_tsp_file ascii_builtins line3_file
  = tsp_parser.Return ("line3"%string, 3, line3).
Proof. by vm_compute. Qed.

Lemma measure_line3 : calculate_tour_distance [1; 2; 3] line3 = Ok 4%R.
Proof. measure. Qed.



Lemma calculate_tour_distance_nonneg_witness :
  calculate_tour_distance [1; 2; 3] line3 = Ok 4%R /\ (0 <= 4)%R.
Proof.
  split; [exact measure_line3|].
  exact (calculate_tour_distance_nonneg [1; 2; 3] line3 4 measure_line3).
Defined.




Lemma line3_more_agrees v :
  v ∈ [1; 2; 3] -> line3 !! v = line3_more !! v.
Proof.
  intros Hv. unfold line3_more. rewrite lookup_insert_ne; [done|].
  intros <-. repeat (apply elem_of_cons in Hv as [Hv|Hv]; [done|]).
  by apply elem_of_nil in Hv.
Qed.

Lemma calculate_tour_distance_agree_witness :
  calculate_tour_distance [1; 2; 3] line3
  = calculate_tour_distance [1; 2; 3] line3_more.
Proof.
  exact (calculate_tour_distance_agree [1; 2; 3] line3 line3_more
           line3_more_agrees).
Defined.



Lemma frozen_clock_never_expires_2 i :
  (frozen_clock i - frozen_clock 0%nat <= 2)%R.
Proof. unfold frozen_clock. lra. Qed.

Lemma evaluated_line3_same :
  candidates_evaluated line3 1 frozen_clock
  = candidates_evaluated line3 2 frozen_clock.
Proof.
  rewrite (evaluated_all line3 1 frozen_clock frozen_clock_never_expires).
  by rewrite (evaluated_all line3 2 frozen_clock frozen_clock_never_expires_2).
Qed.

Lemma brute_force_tsp_determined_witness :
  brute_force_tsp line3 1 frozen_clock = brute_force_tsp line3 2 frozen_clock.
Proof.
  exact (brute_force_tsp_determined line3 1 frozen_clock 2 frozen_clock
           evaluated_line3_same).
Defined.

Lemma evaluated_line3_prefix :
  candidates_evaluated line3 0 ticking_clock
  `prefix_of` candidates_evaluated line3 1 frozen_clock.
Proof.
  rewrite (evaluated_none line3 0 ticking_clock ticking_clock_expired).
  apply prefix_nil.
Qed.

Lemma brute_force_tsp_anytime_witness :
  exists tour1 d1 tour2 d2,
    brute_force_tsp line3 0 ticking_clock = Ok (tour1, Finite d1) /\
    brute_force_tsp line3 1 frozen_clock = Ok (tour2, Finite d2) /\
    (d2 <= d1)%R.
Proof.
  exact (brute_force_tsp_anytime line3 0 ticking_clock 1 frozen_clock
           evaluated_line3_prefix).
Defined.

Lemma brute_force_tsp_clock_reads_witness :
  exists st,
    loop line3 1 frozen_clock (frozen_clock 0%nat) 1
         (itertools.permutations [2; 3]) initial_state = Ok st /\
    1 <= checked st /\
    Z.of_nat (ticks st) = 2 + checked st / check_interval.
Proof.
  exact (brute_force_tsp_clock_reads line3 1 frozen_clock 1 2 [3]
           sorted_keys_line3).
Defined.

Lemma ticking_clock_stays_expired i :
  (1 <= i)%nat -> expired 0 ticking_clock (ticking_clock 0%nat) i = true.
Proof.
  intros Hi. apply Rltb_true. unfold ticking_clock.
  apply (le_INR 1) in Hi. simpl in *. lra.
Qed.

Lemma history_overrun_witness :
  Z.of_nat (length (history line3 0 ticking_clock (ticking_clock 0%nat) 1
                            (itertools.permutations [2; 3]) initial_state))
  < check_interval.
Proof.
  apply (history_overrun line3 0 ticking_clock (ticking_clock 0%nat) 1 1%nat
           (itertools.permutations [2; 3]) initial_state).
  - exact ticking_clock_stays_expired.
  - simpl. lia.
Defined.

Lemma headless_file_no_section :
  Forall (fun line => ~ tsp_parser.opens_section ascii_builtins line)
         headless_file.
Proof. repeat constructor; by vm_compute. Qed.

Lemma parse_tsp_file_needs_section_witness :
  tsp_parser.parse_tsp_file ascii_builtins headless_file
  <> tsp_parser.Return ("headless"%string, 1, {[1 := (0, 0)%R]}).
Proof.
  exact (parse_tsp_file_needs_section ascii_builtins headless_file
           headless_file_no_section _).
Defined.

Lemma parse_tsp_file_cities_witness :
  line3 <> ∅ /\
  forall v c, line3 !! v = Some c ->
    exists line,
      line ∈ line3_file /\ tsp_parser.city_line ascii_builtins line v c.
Proof.
  exact (parse_tsp_file_cities ascii_builtins line3_file "line3" 3 line3
           parse_line3_file).
Defined.

Lemma read_line3_file :
  tsp_parser.read ascii_builtins (take 7 line3_file) tsp_parser.initial
  = tsp_parser.Return (tsp_parser.State line3 (Some "line3"%string) (Some 3)
                                        true).
Proof. by vm_compute. Qed.

Lemma parse_tsp_file_ignores_rest_witness :
  tsp_parser.parse_tsp_file ascii_builtins
    (take 7 line3_file ++ "EOF"%string :: ["4 9 9"%string])
  = tsp_parser.parse_tsp_file ascii_builtins (take 7 line3_file).
Proof.
  apply (parse_tsp_file_ignores_rest ascii_builtins (take 7 line3_file)
           "EOF" ["4 9 9"%string] _ read_line3_file).
  - reflexivity.
  - reflexivity.
Defined.




